(** * Softmax and cross-entropy: a shallow embedding

    The repository holds two NumPy exercises:

    - [softmax.py]: [softmax(L)], two [for] loops over a Python list;
    - [20_cross_entropy.py]: [cross_entropy(Y, P)], one NumPy array
      expression.

    Numbers are modelled by [npfloat]: a [np.float64] given by the real
    number it stands for, or one of the special values [inf], [-inf], [nan],
    which follow the IEEE-754 rules NumPy applies.  The sign of zero is not
    modelled.

    The arithmetic comes in two layers.  The operations [np_add], [np_div],
    [np_exp], ... are exact on finite values: they are the code in exact
    real arithmetic, extended by the special values, and the theorems about
    them either hold whatever the rounding (special values, errors, the
    operations performed) or say that they are statements of exact
    arithmetic.  [Float64] is the arithmetic with its rounding, overflow and
    underflow: rounding and [np.exp] are parameters of which [IEEE] states
    what float64 guarantees, and the theorems about it hold of the code as
    it runs. *)

From Stdlib Require Import Reals Lra Lia List Arith Permutation.
Import ListNotations.

Local Open Scope R_scope.

(** ** Numbers *)

Inductive npfloat : Type :=
| Fin (r : R)
| PInf
| NInf
| NaN.

Definition is_finite (x : npfloat) : bool :=
  match x with Fin _ => true | _ => false end.

(** Sign of a real number, as a [comparison] with zero. *)
Definition Rsign (r : R) : comparison :=
  match total_order_T r 0 with
  | inleft (left _) => Lt
  | inleft (right _) => Eq
  | inright _ => Gt
  end.

(** [-x] *)
Definition np_neg (x : npfloat) : npfloat :=
  match x with
  | Fin r => Fin (- r)
  | PInf => NInf
  | NInf => PInf
  | NaN => NaN
  end.

(** [x + y]; [inf + -inf] is [nan]. *)
Definition np_add (x y : npfloat) : npfloat :=
  match x, y with
  | NaN, _ | _, NaN => NaN
  | Fin a, Fin b => Fin (a + b)
  | PInf, NInf | NInf, PInf => NaN
  | PInf, _ | _, PInf => PInf
  | NInf, _ | _, NInf => NInf
  end.

(** [x - y] *)
Definition np_sub (x y : npfloat) : npfloat := np_add x (np_neg y).

(** [r * i] for an infinite [i]; [0 * inf] is [nan]. *)
Definition scale_inf (r : R) (i : npfloat) : npfloat :=
  match Rsign r with
  | Gt => i
  | Lt => np_neg i
  | Eq => NaN
  end.

(** [x * y] *)
Definition np_mul (x y : npfloat) : npfloat :=
  match x, y with
  | NaN, _ | _, NaN => NaN
  | Fin a, Fin b => Fin (a * b)
  | Fin a, i => scale_inf a i
  | i, Fin b => scale_inf b i
  | PInf, PInf | NInf, NInf => PInf
  | PInf, NInf | NInf, PInf => NInf
  end.

(** [x / y].  NumPy does not raise on a zero divisor: it warns and returns
    [inf], [-inf] or [nan].  The zero of the model is the positive one. *)
Definition np_div (x y : npfloat) : npfloat :=
  match x, y with
  | NaN, _ | _, NaN => NaN
  | Fin a, Fin b =>
      match Rsign b with
      | Eq => scale_inf a PInf
      | _ => Fin (a / b)
      end
  | Fin _, _ => Fin 0
  | i, Fin b =>
      match Rsign b with
      | Lt => np_neg i
      | _ => i
      end
  | _, _ => NaN
  end.

(** [np.exp] *)
Definition np_exp (x : npfloat) : npfloat :=
  match x with
  | Fin r => Fin (exp r)
  | PInf => PInf
  | NInf => Fin 0
  | NaN => NaN
  end.

(** [np.log]: [-inf] at zero and [nan] below it (NumPy warns, and goes on). *)
Definition np_log (x : npfloat) : npfloat :=
  match x with
  | Fin r =>
      match Rsign r with
      | Gt => Fin (ln r)
      | Eq => NInf
      | Lt => NaN
      end
  | PInf => PInf
  | NInf => NaN
  | NaN => NaN
  end.

(** [np.sum] of a one-dimensional array; [0.0] for the empty one.  The
    exact addition of [npfloat] is associative and commutative
    ([np_add_assoc], [np_add_comm]), so the order in which NumPy adds does
    not show in exact arithmetic. *)
Definition np_sum (a : list npfloat) : npfloat :=
  fold_left np_add a (Fin 0).

(** ** [softmax.py]

    The two loops are run in a writer monad that logs every NumPy operation
    performed, so that what the code computes and which operations it
    performs on the way can both be stated. *)

Inductive event : Type :=
| EvExp (x : npfloat)
| EvAdd (x y : npfloat)
| EvDiv (x y : npfloat).

Definition is_div (e : event) : bool :=
  match e with EvDiv _ _ => true | _ => false end.

Module Log.

Definition M (A : Type) : Type := (A * list event)%type.

Definition ret {A : Type} (a : A) : M A := (a, []).

Definition bind {A B : Type} (m : M A) (k : A -> M B) : M B :=
  let (a, t) := m in
  let (b, t') := k a in
  (b, t ++ t').

Definition value {A : Type} (m : M A) : A := fst m.
Definition trace {A : Type} (m : M A) : list event := snd m.

(** The logged operations. *)
Definition exp (x : npfloat) : M npfloat := (np_exp x, [EvExp x]).
Definition add (x y : npfloat) : M npfloat := (np_add x y, [EvAdd x y]).
Definition div (x y : npfloat) : M npfloat := (np_div x y, [EvDiv x y]).

End Log.

Declare Scope log_scope.
Delimit Scope log_scope with log.
Notation "x <- m ;; k" := (Log.bind m (fun x => k))
  (at level 61, m at next level, right associativity) : log_scope.

(** [for i in L: denominator += np.exp(i)] *)
Fixpoint sum_loop (L : list npfloat) (denominator : npfloat)
  : Log.M npfloat :=
  match L with
  | [] => Log.ret denominator
  | i :: L' =>
      (e <- Log.exp i ;;
       d <- Log.add denominator e ;;
       sum_loop L' d)%log
  end.

(** [for i in L: result.append(np.exp(i)/denominator)] *)
Fixpoint div_loop (L : list npfloat) (denominator : npfloat)
  (result : list npfloat) : Log.M (list npfloat) :=
  match L with
  | [] => Log.ret result
  | i :: L' =>
      (e <- Log.exp i ;;
       q <- Log.div e denominator ;;
       div_loop L' denominator (result ++ [q]))%log
  end.

(** [def softmax(L)], with its log. *)
Definition softmax_run (L : list npfloat) : Log.M (list npfloat) :=
  (denominator <- sum_loop L (Fin 0) ;;
   div_loop L denominator [])%log.

(** [def softmax(L)]: the returned list. *)
Definition softmax (L : list npfloat) : list npfloat :=
  Log.value (softmax_run L).

(** The formula of the specification: [sum over j of exp (l_j)]. *)
Definition sum_exp (l : list R) : R :=
  fold_right (fun x acc => exp x + acc) 0 l.

(** Sum of a list of reals. *)
Definition Rsum (l : list R) : R := fold_right Rplus 0 l.

(** A finite value strictly between 0 and 1. *)
Definition in_open_unit (x : npfloat) : Prop :=
  match x with
  | Fin r => 0 < r < 1
  | _ => False
  end.

(** ** [softmax.py] in the arithmetic of float64

    The operations above are exact on finite values.  Here the same two
    loops run over an arithmetic that rounds: [rnd x] is the float64 that
    the real result [x] of an addition or a division is rounded to ([inf]
    or [-inf] when it overflows), and [exp64 r] is what [np.exp] returns on
    the finite float64 [r].  Both are parameters, and [IEEE] collects what
    IEEE-754 and the mathematical library guarantee of them.  The exact
    arithmetic is the instance [rnd = Fin], [exp64 = exp_exact]. *)

Module Float64.
Section Arithmetic.

Variable rnd : R -> npfloat.
Variable exp64 : R -> npfloat.

(** [x + y], correctly rounded. *)
Definition add (x y : npfloat) : npfloat :=
  match x, y with
  | Fin a, Fin b => rnd (a + b)
  | _, _ => np_add x y
  end.

(** [x / y], correctly rounded; a zero divisor warns and gives [inf],
    [-inf] or [nan] (the zero of the model is the positive one, as a
    denominator of [softmax] is). *)
Definition div (x y : npfloat) : npfloat :=
  match x, y with
  | Fin a, Fin b =>
      match Rsign b with
      | Eq => scale_inf a PInf
      | _ => rnd (a / b)
      end
  | _, _ => np_div x y
  end.

(** [np.exp] *)
Definition exp (x : npfloat) : npfloat :=
  match x with
  | Fin r => exp64 r
  | _ => np_exp x
  end.

(** [for i in L: denominator += np.exp(i)] *)
Fixpoint sum_loop (L : list npfloat) (denominator : npfloat) : npfloat :=
  match L with
  | [] => denominator
  | i :: L' => sum_loop L' (add denominator (exp i))
  end.

(** [for i in L: result.append(np.exp(i)/denominator)] *)
Fixpoint div_loop (L : list npfloat) (denominator : npfloat)
  (result : list npfloat) : list npfloat :=
  match L with
  | [] => result
  | i :: L' => div_loop L' denominator (result ++ [div (exp i) denominator])
  end.

(** [def softmax(L)] *)
Definition softmax (L : list npfloat) : list npfloat :=
  div_loop L (sum_loop L (Fin 0)) [].

End Arithmetic.
End Float64.

(** The order of float64: [-inf] below and [inf] above every finite value,
    [nan] comparable with nothing. *)
Definition np_le (x y : npfloat) : Prop :=
  match x, y with
  | Fin a, Fin b => a <= b
  | NInf, (Fin _ | PInf | NInf) => True
  | (Fin _ | PInf), PInf => True
  | _, _ => False
  end.

(** What IEEE-754 guarantees of rounding to nearest, and the mathematical
    library of [exp]: rounding is monotone and never [nan], it keeps 0, 1
    and every value it returns; [np.exp] of a finite number is a float64
    that is not negative, or [inf]. *)
Record IEEE (rnd : R -> npfloat) (exp64 : R -> npfloat) : Prop := {
  rnd_mono : forall x y, x <= y -> np_le (rnd x) (rnd y);
  rnd_0 : rnd 0 = Fin 0;
  rnd_1 : rnd 1 = Fin 1;
  rnd_idem : forall x y, rnd x = Fin y -> rnd y = Fin y;
  exp64_range : forall r,
    exp64 r = PInf \/ exists e, exp64 r = Fin e /\ 0 <= e /\ rnd e = Fin e
}.

(** The exact arithmetic: nothing is rounded. *)
Definition exp_exact (r : R) : npfloat := Fin (exp r).

(** The exact arithmetic cut to the range of float64: a result of magnitude
    [2^1024] or more overflows, one of magnitude below [2^-1075] underflows
    to 0, as they do under every float64 rounding to nearest; the results in
    between are not rounded. *)
Definition overflow_threshold : R := 2 ^ 1024.

Definition underflow_threshold : R := / 2 ^ 1075.

Definition rnd_range (x : R) : npfloat :=
  if Rle_dec overflow_threshold x then PInf
  else if Rle_dec x (- overflow_threshold) then NInf
  else if Rlt_dec (Rabs x) underflow_threshold then Fin 0
  else Fin x.

Definition exp_range (r : R) : npfloat := rnd_range (exp r).

(** A float64 that is not negative: [inf], or a finite value that rounding
    keeps. *)
Definition nonneg (rnd : R -> npfloat) (x : npfloat) : Prop :=
  x = PInf \/ exists e, x = Fin e /\ 0 <= e /\ rnd e = Fin e.

(** A value of [softmax] as it can come out of float64: [nan], or a number
    of the closed interval [0, 1]. *)
Definition unit_or_nan (x : npfloat) : Prop :=
  x = NaN \/ exists r, x = Fin r /\ 0 <= r <= 1.


(** ** [20_cross_entropy.py] *)

(** NumPy's only failure here: operands could not be broadcast together. *)
Inductive error : Type :=
| ValueError.

Inductive result (A : Type) : Type :=
| Ok (a : A)
| Raise (e : error).

Arguments Ok {A} a.
Arguments Raise {A} e.

Definition rbind {A B : Type} (m : result A) (k : A -> result B)
  : result B :=
  match m with
  | Ok a => k a
  | Raise e => Raise e
  end.

Declare Scope result_scope.
Delimit Scope result_scope with result.
Notation "x <- m ;; k" := (rbind m (fun x => k))
  (at level 61, m at next level, right associativity) : result_scope.

(** Elementwise operation on two arrays of one length. *)
Fixpoint map2 (f : npfloat -> npfloat -> npfloat) (a b : list npfloat)
  : list npfloat :=
  match a, b with
  | x :: a', y :: b' => f x y :: map2 f a' b'
  | _, _ => []
  end.

(** A binary operator on two one-dimensional arrays, under NumPy's
    broadcasting: equal lengths go elementwise, an array of length one is
    stretched to the other's length, and anything else raises. *)
Definition broadcast (f : npfloat -> npfloat -> npfloat)
  (a b : list npfloat) : result (list npfloat) :=
  if Nat.eqb (length a) (length b) then Ok (map2 f a b)
  else
    match a, b with
    | [x], _ => Ok (map (f x) b)
    | _, [y] => Ok (map (fun x => f x y) a)
    | _, _ => Raise ValueError
    end.

(** [np.float_(Y)], NumPy 1.x's name of [np.float64]: a list of numbers
    becomes a one-dimensional array of the same numbers. *)
Definition np_float_ (Y : list npfloat) : list npfloat := Y.

(** [def cross_entropy(Y, P)] *)
Definition cross_entropy (Y P : list npfloat) : result npfloat :=
  let Y := np_float_ Y in
  let P := np_float_ P in
  (a <- broadcast np_mul Y (map np_log P) ;;
   b <- broadcast np_mul (map (np_sub (Fin 1)) Y)
          (map np_log (map (np_sub (Fin 1)) P)) ;;
   s <- broadcast np_add a b ;;
   Ok (np_neg (np_sum s)))%result.

(** One summand of the specification's formula, in NumPy's arithmetic:
    [y * ln p + (1 - y) * ln (1 - p)]. *)
Definition ce_term (y p : npfloat) : npfloat :=
  np_add (np_mul y (np_log p))
         (np_mul (np_sub (Fin 1) y) (np_log (np_sub (Fin 1) p))).

(** The formula of the specification, over the index pairs [i = 1..N]:
    [- sum over i of (y_i * ln p_i + (1 - y_i) * ln (1 - p_i))]. *)
Definition ce_formula (Y P : list npfloat) : npfloat :=
  np_neg
    (fold_right np_add (Fin 0)
       (map (fun i => ce_term (nth i Y NaN) (nth i P NaN))
            (seq 0 (length Y)))).

(** The same summand and formula over the reals, where [0 < p < 1]. *)
Definition ce_term_R (y p : R) : R :=
  y * ln p + (1 - y) * ln (1 - p).

Definition ce_formula_R (ys ps : list R) : R :=
  - Rsum (map (fun i => ce_term_R (nth i ys 0) (nth i ps 0))
              (seq 0 (length ys))).

(** ** Vocabulary of the further properties *)

Definition is_exp (e : event) : bool :=
  match e with EvExp _ => true | _ => false end.

Definition is_add (e : event) : bool :=
  match e with EvAdd _ _ => true | _ => false end.

(** A binary label, as the number the code receives. *)
Definition label (b : bool) : npfloat := Fin (if b then 1 else 0).

(** The probability a prediction [p] of the class 1 gives to the label. *)
Definition likelihood (b : bool) (p : R) : R := if b then p else 1 - p.

(** * Properties *)

(** ** Arithmetic of [npfloat] *)

Lemma Rsign_pos (r : R) : 0 < r -> Rsign r = Gt.
Proof.
  intros H; unfold Rsign.
  destruct (total_order_T r 0) as [[Hlt | Heq] | Hgt]; try reflexivity; lra.
Qed.

Lemma Rsign_neg (r : R) : r < 0 -> Rsign r = Lt.
Proof.
  intros H; unfold Rsign.
  destruct (total_order_T r 0) as [[Hlt | Heq] | Hgt]; try reflexivity; lra.
Qed.

Lemma Rsign_zero (r : R) : r = 0 -> Rsign r = Eq.
Proof.
  intros H; unfold Rsign.
  destruct (total_order_T r 0) as [[Hlt | Heq] | Hgt]; try reflexivity; lra.
Qed.

Lemma np_add_comm (x y : npfloat) : np_add x y = np_add y x.
Proof. destruct x, y; simpl; try reflexivity; f_equal; lra. Qed.

Lemma np_add_assoc (x y z : npfloat) :
  np_add x (np_add y z) = np_add (np_add x y) z.
Proof. destruct x, y, z; simpl; try reflexivity; f_equal; lra. Qed.

Lemma np_add_0_l (x : npfloat) : np_add (Fin 0) x = x.
Proof. destruct x; simpl; try reflexivity; f_equal; lra. Qed.

Lemma np_add_0_r (x : npfloat) : np_add x (Fin 0) = x.
Proof. rewrite np_add_comm; apply np_add_0_l. Qed.

Lemma fold_left_np_add (a : list npfloat) (x : npfloat) :
  fold_left np_add a x = np_add x (fold_right np_add (Fin 0) a).
Proof.
  revert x; induction a as [| y a IH]; intros x; simpl.
  - now rewrite np_add_0_r.
  - now rewrite IH, np_add_assoc.
Qed.

(** [np.sum] does not depend on the direction of the summation. *)
Lemma np_sum_fold_right (a : list npfloat) :
  np_sum a = fold_right np_add (Fin 0) a.
Proof. unfold np_sum; rewrite fold_left_np_add; apply np_add_0_l. Qed.

Lemma np_sum_cons (x : npfloat) (a : list npfloat) :
  np_sum (x :: a) = np_add x (np_sum a).
Proof. now rewrite !np_sum_fold_right. Qed.

Lemma np_sum_Fin (rs : list R) : np_sum (map Fin rs) = Fin (Rsum rs).
Proof.
  induction rs as [| r rs IH].
  - reflexivity.
  - simpl map; rewrite np_sum_cons, IH; reflexivity.
Qed.

(** ** The loops of [softmax] *)

Lemma sum_loop_value (L : list npfloat) (d : npfloat) :
  Log.value (sum_loop L d) =
  fold_left (fun acc i => np_add acc (np_exp i)) L d.
Proof.
  revert d; induction L as [| i L IH]; intros d; simpl.
  - reflexivity.
  - rewrite <- IH. unfold Log.value.
    destruct (sum_loop L (np_add d (np_exp i))); reflexivity.
Qed.

Lemma div_loop_value (L : list npfloat) (d : npfloat) (acc : list npfloat) :
  Log.value (div_loop L d acc) =
  acc ++ map (fun i => np_div (np_exp i) d) L.
Proof.
  revert acc; induction L as [| i L IH]; intros acc; simpl.
  - now rewrite app_nil_r.
  - specialize (IH (acc ++ [np_div (np_exp i) d])).
    unfold Log.value in *.
    destruct (div_loop L d (acc ++ [np_div (np_exp i) d])); simpl in *.
    now rewrite IH, <- app_assoc.
Qed.

(** What the two loops return, as one expression. *)
Lemma softmax_unfold (L : list npfloat) :
  softmax L =
  map (fun i => np_div (np_exp i)
                  (fold_left (fun acc i => np_add acc (np_exp i)) L (Fin 0)))
      L.
Proof.
  unfold softmax, softmax_run.
  rewrite <- sum_loop_value.
  pose proof (div_loop_value L (Log.value (sum_loop L (Fin 0))) []) as H.
  unfold Log.value, Log.bind in *.
  destruct (sum_loop L (Fin 0)) as [d t]; simpl in *.
  destruct (div_loop L d []) as [r t']; simpl in *.
  exact H.
Qed.

Lemma sum_exp_fold (l : list R) (d : R) :
  fold_left (fun acc i => np_add acc (np_exp i)) (map Fin l) (Fin d) =
  Fin (d + sum_exp l).
Proof.
  revert d; induction l as [| x l IH]; intros d; simpl.
  - f_equal; lra.
  - rewrite IH; f_equal; lra.
Qed.

Lemma sum_exp_nonneg (l : list R) : 0 <= sum_exp l.
Proof.
  induction l as [| x l IH]; simpl.
  - lra.
  - pose proof (exp_pos x); lra.
Qed.

Lemma sum_exp_pos (l : list R) : l <> [] -> 0 < sum_exp l.
Proof.
  destruct l as [| x l]; [congruence |]; intros _; simpl.
  pose proof (exp_pos x); pose proof (sum_exp_nonneg l); lra.
Qed.

(** In exact arithmetic [softmax] is the real-valued formula. *)
Lemma softmax_finite (l : list R) :
  softmax (map Fin l) = map (fun x => Fin (exp x / sum_exp l)) l.
Proof.
  rewrite softmax_unfold, sum_exp_fold, map_map, Rplus_0_l.
  destruct l as [| x0 l0] eqn:E; [reflexivity |]; rewrite <- E.
  assert (Hpos : 0 < sum_exp l) by (apply sum_exp_pos; subst; discriminate).
  apply map_ext; intros x; simpl.
  now rewrite (Rsign_pos _ Hpos).
Qed.


(** The number of divisions performed is the number of elements. *)
Lemma div_loop_trace (L : list npfloat) (d : npfloat) (acc : list npfloat) :
  length (filter is_div (Log.trace (div_loop L d acc))) = length L.
Proof.
  revert acc; induction L as [| i L IH]; intros acc; simpl.
  - reflexivity.
  - specialize (IH (acc ++ [np_div (np_exp i) d])).
    unfold Log.trace in *.
    destruct (div_loop L d (acc ++ [np_div (np_exp i) d])); simpl in *.
    now rewrite IH.
Qed.

Lemma sum_loop_trace (L : list npfloat) (d : npfloat) :
  filter is_div (Log.trace (sum_loop L d)) = [].
Proof.
  revert d; induction L as [| i L IH]; intros d; simpl.
  - reflexivity.
  - specialize (IH (np_add d (np_exp i))).
    unfold Log.trace in *.
    destruct (sum_loop L (np_add d (np_exp i))); simpl in *.
    exact IH.
Qed.

Lemma softmax_divisions (L : list npfloat) :
  length (filter is_div (Log.trace (softmax_run L))) = length L.
Proof.
  unfold softmax_run.
  pose proof (sum_loop_trace L (Fin 0)) as H1.
  unfold Log.trace, Log.bind in *.
  destruct (sum_loop L (Fin 0)) as [d t]; simpl in *.
  pose proof (div_loop_trace L d []) as H2.
  unfold Log.trace in H2.
  destruct (div_loop L d []) as [r t']; simpl in *.
  now rewrite filter_app, H1.
Qed.

(** The run on a one-element list: two exponentials, one addition to the
    initial 0, one division. *)
Example softmax_run_singleton :
  softmax_run [Fin 0] =
  ([Fin (exp 0 / (0 + exp 0))],
   [EvExp (Fin 0); EvAdd (Fin 0) (Fin (exp 0));
    EvExp (Fin 0); EvDiv (Fin (exp 0)) (Fin (0 + exp 0))]).
Proof.
  pose proof (exp_pos 0).
  unfold softmax_run; simpl.
  now rewrite Rsign_pos by lra.
Qed.

(** The quiz of the source, [L = [5, 6, 7]], before evaluation of [exp]. *)
Example softmax_5_6_7 :
  softmax (map Fin [5; 6; 7]) =
  [Fin (exp 5 / (exp 5 + (exp 6 + (exp 7 + 0))));
   Fin (exp 6 / (exp 5 + (exp 6 + (exp 7 + 0))));
   Fin (exp 7 / (exp 5 + (exp 6 + (exp 7 + 0))))].
Proof. now rewrite softmax_finite. Qed.

(** ** [softmax] in the arithmetic of float64 *)

Section Rounded.

Variable rnd : R -> npfloat.
Variable exp64 : R -> npfloat.

Lemma Float64_sum_loop_fold (L : list npfloat) (d : npfloat) :
  Float64.sum_loop rnd exp64 L d =
  fold_left (Float64.add rnd) (map (Float64.exp exp64) L) d.
Proof.
  revert d; induction L as [| i L IH]; intros d; simpl; [| rewrite IH];
    reflexivity.
Qed.

Lemma Float64_div_loop_map (L : list npfloat) (d : npfloat)
  (acc : list npfloat) :
  Float64.div_loop rnd exp64 L d acc =
  acc ++ map (fun i => Float64.div rnd (Float64.exp exp64 i) d) L.
Proof.
  revert acc; induction L as [| i L IH]; intros acc; simpl.
  - now rewrite app_nil_r.
  - now rewrite IH, <- app_assoc.
Qed.

(** What the two loops return, for every rounding and every [exp]. *)
Lemma Float64_softmax_map (L : list npfloat) :
  Float64.softmax rnd exp64 L =
  map (fun i =>
         Float64.div rnd (Float64.exp exp64 i)
           (fold_left (Float64.add rnd) (map (Float64.exp exp64) L) (Fin 0)))
      L.
Proof.
  unfold Float64.softmax.
  now rewrite Float64_div_loop_map, Float64_sum_loop_fold.
Qed.

Lemma Float64_add_NaN_l (x : npfloat) : Float64.add rnd NaN x = NaN.
Proof. reflexivity. Qed.

Lemma Float64_add_NaN_r (x : npfloat) : Float64.add rnd x NaN = NaN.
Proof. destruct x; reflexivity. Qed.

Lemma Float64_div_NaN_r (x : npfloat) : Float64.div rnd x NaN = NaN.
Proof. destruct x; reflexivity. Qed.

Lemma Float64_fold_NaN (es : list npfloat) (d : npfloat) :
  d = NaN \/ In NaN es -> fold_left (Float64.add rnd) es d = NaN.
Proof.
  revert d; induction es as [| e es IH]; intros d [Hd | Hin]; simpl.
  - exact Hd.
  - contradiction.
  - apply IH; left; subst; reflexivity.
  - apply IH; destruct Hin as [-> | Hin]; [left | now right].
    apply Float64_add_NaN_r.
Qed.

Hypothesis ieee : IEEE rnd exp64.

Lemma rnd_not_NaN (x : R) : rnd x <> NaN.
Proof.
  intros E; pose proof (rnd_mono _ _ ieee x x (Rle_refl x)) as H.
  rewrite E in H; exact H.
Qed.

Lemma Float64_exp_cases (x : npfloat) :
  (x = NaN /\ Float64.exp exp64 x = NaN) \/
  (x <> NaN /\ nonneg rnd (Float64.exp exp64 x)).
Proof.
  destruct x as [r | | |]; simpl.
  - right; split; [discriminate |]. exact (exp64_range _ _ ieee r).
  - right; split; [discriminate |]. now left.
  - right; split; [discriminate |]. right; exists 0.
    repeat split; [lra | exact (rnd_0 _ _ ieee)].
  - left; split; reflexivity.
Qed.

Lemma Float64_add_nonneg (d e : npfloat) :
  nonneg rnd d -> nonneg rnd e ->
  nonneg rnd (Float64.add rnd d e) /\
  np_le d (Float64.add rnd d e) /\
  np_le e (Float64.add rnd d e).
Proof.
  intros [-> | (a & -> & Ha & Ra)] [-> | (b & -> & Hb & Rb)]; simpl;
    try (repeat split; solve [now left | exact I]).
  pose proof (rnd_mono _ _ ieee a (a + b)) as M1.
  pose proof (rnd_mono _ _ ieee b (a + b)) as M2.
  rewrite Ra in M1; rewrite Rb in M2.
  specialize (M1 ltac:(lra)); specialize (M2 ltac:(lra)).
  destruct (rnd (a + b)) as [s | | |] eqn:E; simpl in *;
    try contradiction; repeat split; try assumption; try exact I.
  - right; exists s; repeat split;
      [lra | exact (rnd_idem _ _ ieee _ _ E)].
  - now left.
Qed.

Lemma np_le_trans (x y z : npfloat) : np_le x y -> np_le y z -> np_le x z.
Proof.
  destruct x, y, z; simpl; try tauto; lra.
Qed.

Lemma Float64_fold_nonneg (es : list npfloat) (d : npfloat) :
  nonneg rnd d -> Forall (nonneg rnd) es ->
  nonneg rnd (fold_left (Float64.add rnd) es d) /\
  np_le d (fold_left (Float64.add rnd) es d) /\
  Forall (fun e => np_le e (fold_left (Float64.add rnd) es d)) es.
Proof.
  intros Hd Hes; revert d Hd.
  induction Hes as [| e es He _ IH]; intros d Hd; simpl.
  - repeat split; [exact Hd | | constructor].
    destruct Hd as [-> | (a & -> & _)]; simpl; [exact I | lra].
  - destruct (Float64_add_nonneg d e Hd He) as (N & L1 & L2).
    destruct (IH _ N) as (N' & L' & F').
    repeat split; [exact N' | | constructor; [| exact F']].
    + exact (np_le_trans _ _ _ L1 L').
    + exact (np_le_trans _ _ _ L2 L').
Qed.

Lemma Float64_div_unit (e d : npfloat) :
  nonneg rnd e -> nonneg rnd d -> np_le e d ->
  unit_or_nan (Float64.div rnd e d).
Proof.
  intros [-> | (a & -> & Ha & _)] [-> | (b & -> & Hb & _)] Hle;
    simpl in *; try contradiction.
  - now left.
  - right; exists 0; split; [reflexivity | lra].
  - destruct (Rsign b) eqn:S.
    + unfold Rsign in S.
      destruct (total_order_T b 0) as [[? | ?] | ?]; try discriminate.
      left; unfold scale_inf; now rewrite Rsign_zero by lra.
    + unfold Rsign in S.
      destruct (total_order_T b 0) as [[? | ?] | ?]; try discriminate; lra.
    + unfold Rsign in S.
      destruct (total_order_T b 0) as [[? | ?] | ?]; try discriminate.
      assert (Hq : 0 <= a / b <= 1).
      { split.
        - apply Rmult_le_pos; [lra |]. left; now apply Rinv_0_lt_compat.
        - apply (Rmult_le_reg_r b); [lra |].
          unfold Rdiv; rewrite Rmult_assoc, Rinv_l by lra; lra. }
      pose proof (rnd_mono _ _ ieee 0 (a / b) (proj1 Hq)) as M0.
      pose proof (rnd_mono _ _ ieee (a / b) 1 (proj2 Hq)) as M1.
      rewrite (rnd_0 _ _ ieee) in M0; rewrite (rnd_1 _ _ ieee) in M1.
      destruct (rnd (a / b)) as [q | | |]; simpl in *; try contradiction.
      right; exists q; split; [reflexivity | lra].
Qed.

Lemma Float64_exps_cases (L : list npfloat) :
  In NaN L \/ (~ In NaN L /\ Forall (nonneg rnd) (map (Float64.exp exp64) L)).
Proof.
  induction L as [| x L IH]; simpl.
  - right; split; [tauto | constructor].
  - destruct (Float64_exp_cases x) as [[-> _] | [Hx Nx]]; [left; now left |].
    destruct IH as [Hin | [Hnot HF]]; [left; now right |].
    right; split; [| now constructor].
    intros [E | Hin]; [now apply Hx | now apply Hnot].
Qed.

(** Every value returned is [nan] or lies in [0, 1]. *)
Lemma Float64_softmax_unit (L : list npfloat) :
  Forall unit_or_nan (Float64.softmax rnd exp64 L).
Proof.
  rewrite Float64_softmax_map.
  destruct (Float64_exps_cases L) as [Hin | [_ HF]].
  - rewrite Float64_fold_NaN
      by (right; change NaN with (Float64.exp exp64 NaN); now apply in_map).
    apply Forall_forall; intros y Hy.
    apply in_map_iff in Hy as (x & <- & _).
    left; apply Float64_div_NaN_r.
  - assert (H0 : nonneg rnd (Fin 0)).
    { right; exists 0; repeat split; [lra | exact (rnd_0 _ _ ieee)]. }
    destruct (Float64_fold_nonneg _ _ H0 HF) as (ND & _ & FD).
    apply Forall_forall; intros y Hy.
    apply in_map_iff in Hy as (x & <- & Hx).
    apply Float64_div_unit; [| exact ND |].
    + apply (proj1 (Forall_forall _ _) HF), in_map, Hx.
    + apply (proj1 (Forall_forall _ _) FD), in_map, Hx.
Qed.


End Rounded.

(** The exact arithmetic satisfies [IEEE], and gives [softmax] back. *)
Lemma IEEE_exact : IEEE Fin exp_exact.
Proof.
  split.
  - intros x y H; exact H.
  - reflexivity.
  - reflexivity.
  - intros x y H; now injection H as ->.
  - intros r; right; exists (exp r); repeat split.
    left; apply exp_pos.
Qed.

Lemma Float64_add_exact (x y : npfloat) : Float64.add Fin x y = np_add x y.
Proof. destruct x, y; reflexivity. Qed.

Lemma Float64_div_exact (x y : npfloat) : Float64.div Fin x y = np_div x y.
Proof.
  destruct x, y; reflexivity.
Qed.

Lemma Float64_exp_exact (x : npfloat) : Float64.exp exp_exact x = np_exp x.
Proof. destruct x; reflexivity. Qed.

Lemma Float64_fold_exact (L : list npfloat) (d : npfloat) :
  fold_left (Float64.add Fin) (map (Float64.exp exp_exact) L) d =
  fold_left (fun acc i => np_add acc (np_exp i)) L d.
Proof.
  revert d; induction L as [| i L IH]; intros d; simpl; [reflexivity |].
  now rewrite IH, Float64_add_exact, Float64_exp_exact.
Qed.

Lemma softmax_exact (L : list npfloat) :
  Float64.softmax Fin exp_exact L = softmax L.
Proof.
  rewrite Float64_softmax_map, softmax_unfold, Float64_fold_exact.
  apply map_ext; intros i.
  now rewrite Float64_div_exact, Float64_exp_exact.
Qed.

(** The arithmetic cut to the range of float64 satisfies [IEEE] too. *)
Lemma overflow_threshold_gt_1 : 1 < overflow_threshold.
Proof. apply Rlt_pow_R1; [lra | lia]. Qed.

Lemma underflow_threshold_bounds : 0 < underflow_threshold < 1.
Proof.
  unfold underflow_threshold.
  assert (H : 1 < 2 ^ 1075) by (apply Rlt_pow_R1; [lra | lia]).
  split.
  - apply Rinv_0_lt_compat; lra.
  - rewrite <- Rinv_1; apply Rinv_lt_contravar; lra.
Qed.

Ltac rnd_range_cases :=
  unfold rnd_range in *;
  repeat match goal with
    | |- context [Rle_dec ?a ?b] => destruct (Rle_dec a b)
    | |- context [Rlt_dec ?a ?b] => destruct (Rlt_dec a b)
    | H : context [Rle_dec ?a ?b] |- _ => destruct (Rle_dec a b)
    | H : context [Rlt_dec ?a ?b] |- _ => destruct (Rlt_dec a b)
    end;
  cbv beta iota in *.

Ltac Rabs_cases :=
  unfold Rabs in *;
  repeat match goal with
    | H : context [Rcase_abs ?a] |- _ => destruct (Rcase_abs a)
    | |- context [Rcase_abs ?a] => destruct (Rcase_abs a)
    end.

Lemma IEEE_range : IEEE rnd_range exp_range.
Proof.
  pose proof overflow_threshold_gt_1 as HT.
  pose proof underflow_threshold_bounds as HU.
  assert (Hidem : forall x y, rnd_range x = Fin y -> rnd_range y = Fin y).
  { intros x y H; rnd_range_cases; try discriminate;
      injection H as <-; try reflexivity; Rabs_cases; lra. }
  split.
  - intros x y H; rnd_range_cases; simpl; try exact I; Rabs_cases; lra.
  - rnd_range_cases; try reflexivity; Rabs_cases; lra.
  - rnd_range_cases; try reflexivity; Rabs_cases; lra.
  - exact Hidem.
  - intros r; unfold exp_range; pose proof (exp_pos r) as He.
    destruct (rnd_range (exp r)) as [e | | |] eqn:E.
    + right; exists e; repeat split; [| exact (Hidem _ _ E)].
      revert E; rnd_range_cases; intros E; try discriminate;
        injection E as <-; lra.
    + now left.
    + revert E; rnd_range_cases; intros E; try discriminate; lra.
    + revert E; rnd_range_cases; intros E; discriminate.
Qed.

Lemma exp_INR (n : nat) (x : R) : exp (INR n * x) = exp x ^ n.
Proof.
  induction n as [| n IH].
  - simpl; rewrite Rmult_0_l; apply exp_0.
  - rewrite S_INR, Rmult_plus_distr_r, Rmult_1_l, exp_plus, IH.
    simpl; ring.
Qed.

(** [exp 1000] is far beyond the range of float64. *)
Lemma exp_1000_large : 2 ^ 1125 <= exp 1000.
Proof.
  replace 1000 with (INR 2000 * (1 / 2))
    by (rewrite INR_IZR_INZ; change (Z.of_nat 2000) with 2000%Z; lra).
  rewrite exp_INR.
  change 2000%nat with (16 * 125)%nat; change 1125%nat with (9 * 125)%nat.
  rewrite !pow_mult.
  apply pow_incr; split; [left; apply pow_lt; lra |].
  apply Rle_trans with ((3 / 2) ^ 16); [simpl; lra |].
  apply pow_incr; split; [lra |].
  pose proof (exp_ineq1_le (1 / 2)); lra.
Qed.


Lemma exp_range_neg_1000 : exp_range (-1000) = Fin 0.
Proof.
  pose proof overflow_threshold_gt_1 as HT.
  pose proof (exp_pos (-1000)) as Hpos.
  assert (Hsmall : exp (-1000) < underflow_threshold).
  { replace (-1000) with (Ropp 1000) by lra.
    rewrite exp_Ropp; unfold underflow_threshold.
    apply Rinv_lt_contravar.
    - apply Rmult_lt_0_compat; [apply pow_lt; lra | apply exp_pos].
    - apply Rlt_le_trans with (2 ^ 1125); [| exact exp_1000_large].
      apply Rlt_pow; [lra | lia]. }
  pose proof underflow_threshold_bounds as HU.
  unfold exp_range; rnd_range_cases; try reflexivity; try lra.
  exfalso; Rabs_cases; lra.
Qed.

Lemma exp_range_0 : exp_range 0 = Fin 1.
Proof.
  pose proof overflow_threshold_gt_1 as HT.
  pose proof underflow_threshold_bounds as HU.
  unfold exp_range; rewrite exp_0.
  rnd_range_cases; try reflexivity; Rabs_cases; lra.
Qed.

Lemma rnd_range_1 : rnd_range 1 = Fin 1.
Proof. exact (rnd_1 _ _ IEEE_range). Qed.

Lemma rnd_range_0 : rnd_range 0 = Fin 0.
Proof. exact (rnd_0 _ _ IEEE_range). Qed.


(** In float64 an underflowing exponential leaves exactly 0 and 1. *)
Example softmax_range_0_neg_1000 :
  Float64.softmax rnd_range exp_range [Fin 0; Fin (-1000)] = [Fin 1; Fin 0].
Proof.
  unfold Float64.softmax; simpl.
  rewrite exp_range_0, exp_range_neg_1000; simpl.
  replace (0 + 1) with 1 by lra; rewrite rnd_range_1; simpl.
  replace (1 + 0) with 1 by lra; rewrite rnd_range_1; simpl.
  rewrite (Rsign_pos 1) by lra.
  replace (1 / 1) with 1 by lra; replace (0 / 1) with 0 by lra.
  now rewrite rnd_range_1, rnd_range_0.
Qed.

Lemma fold_left_np_exp (L : list npfloat) (d : npfloat) :
  fold_left (fun acc i => np_add acc (np_exp i)) L d =
  fold_left np_add (map np_exp L) d.
Proof.
  revert d; induction L as [| i L IH]; intros d; simpl; [| rewrite IH];
    reflexivity.
Qed.

(** ** [softmax]: the claims *)










Lemma exp_le_sum_exp (l : list R) (x : R) : In x l -> exp x <= sum_exp l.
Proof.
  induction l as [| y l IH]; simpl; [contradiction |].
  intros [-> | Hx].
  - pose proof (sum_exp_nonneg l); lra.
  - pose proof (IH Hx); pose proof (exp_pos y); lra.
Qed.

(** C4, as stated, fails on a one-element input: its only output is 1. *)
Lemma softmax_singleton_not_open :
  softmax (map Fin [0]) = [Fin 1] /\
  ~ Forall in_open_unit (softmax (map Fin [0])).
Proof.
  assert (E : softmax (map Fin [0]) = [Fin 1]).
  { rewrite softmax_finite; simpl; f_equal; f_equal.
    pose proof (exp_pos 0); field; lra. }
  split; [exact E |].
  rewrite E; intros H; inversion H as [| x a Hx Ha]; subst.
  simpl in Hx; lra.
Qed.

(** In exact arithmetic every output on a non-empty sequence of real
    numbers is positive and at most 1; it is strictly below 1 as soon as the
    input has two elements, and exactly 1 when it has one. *)
Lemma softmax_range_exact (l : list R) :
  l <> [] ->
  Forall (fun x => exists r, x = Fin r /\ 0 < r <= 1)
         (softmax (map Fin l)) /\
  ((2 <= length l)%nat -> Forall in_open_unit (softmax (map Fin l))) /\
  (length l = 1%nat -> softmax (map Fin l) = [Fin 1]).
Proof.
  intros Hne; rewrite softmax_finite.
  pose proof (sum_exp_pos l Hne) as Hpos.
  pose proof (exp_le_sum_exp l) as Hin.
  assert (Hin2 : (2 <= length l)%nat ->
                 forall x, In x l -> exp x < sum_exp l).
  { clear; intros Hlen x Hx.
    destruct l as [| a [| b l]]; simpl in Hlen; try lia.
    pose proof (exp_pos a); pose proof (exp_pos b).
    pose proof (sum_exp_nonneg l).
    destruct Hx as [-> | [-> | Hx]]; simpl; try lra.
    pose proof (exp_le_sum_exp l x Hx); lra. }
  split; [| split].
  - apply Forall_forall; intros y Hy.
    apply in_map_iff in Hy as (x & <- & Hx).
    eexists; split; [reflexivity |].
    pose proof (exp_pos x); pose proof (Hin x Hx).
    split.
    + apply Rdiv_lt_0_compat; assumption.
    + apply (Rmult_le_reg_r (sum_exp l)); [assumption |].
      unfold Rdiv; rewrite Rmult_assoc, Rinv_l by lra; lra.
  - intros Hlen; apply Forall_forall; intros y Hy.
    apply in_map_iff in Hy as (x & <- & Hx); simpl.
    pose proof (exp_pos x); pose proof (Hin2 Hlen x Hx).
    split.
    + apply Rdiv_lt_0_compat; assumption.
    + apply (Rmult_lt_reg_r (sum_exp l)); [assumption |].
      unfold Rdiv; rewrite Rmult_assoc, Rinv_l by lra; lra.
  - intros Hlen; destruct l as [| x [| y l]]; simpl in Hlen; try lia.
    simpl; f_equal; f_equal.
    pose proof (exp_pos x); field; lra.
Qed.

(** C4, amended.  In floating point every output of [softmax] is [nan] or
    lies in the closed interval [0, 1]: rounding and underflow reach 0 and 1,
    overflow gives [nan].  In exact arithmetic every output on a non-empty
    sequence of real numbers is positive and at most 1; it is strictly below
    1 as soon as the input has two elements, and exactly 1 when it has
    one. *)
Theorem softmax_range :
  (forall rnd exp64 : R -> npfloat,
     IEEE rnd exp64 ->
     forall L : list npfloat,
       Forall unit_or_nan (Float64.softmax rnd exp64 L)) /\
  (forall l : list R,
     l <> [] ->
     Forall (fun x => exists r, x = Fin r /\ 0 < r <= 1)
            (softmax (map Fin l)) /\
     ((2 <= length l)%nat -> Forall in_open_unit (softmax (map Fin l))) /\
     (length l = 1%nat -> softmax (map Fin l) = [Fin 1])).
Proof.
  split; [exact Float64_softmax_unit | exact softmax_range_exact].
Qed.

Lemma softmax_range_witness :
  Forall unit_or_nan
    (Float64.softmax rnd_range exp_range [Fin 0; Fin (-1000)]) /\
  Forall (fun x => exists r, x = Fin r /\ 0 < r <= 1)
         (softmax (map Fin [5; 6; 7])) /\
  Forall in_open_unit (softmax (map Fin [5; 6; 7])) /\
  softmax (map Fin [0]) = [Fin 1].
Proof.
  split; [| split; [| split]].
  - apply (proj1 softmax_range rnd_range exp_range IEEE_range).
  - apply (proj2 softmax_range [5; 6; 7]); discriminate.
  - apply (proj2 softmax_range [5; 6; 7]); [discriminate | simpl; lia].
  - apply (proj2 softmax_range [0]); [discriminate | reflexivity].
Defined.

(** C9. On the empty sequence [softmax] returns the empty sequence, and
    performs no operation at all on the way: no division, and no use of the
    denominator, which stays at its initial 0. *)
Theorem softmax_empty :
  softmax [] = [] /\
  Log.trace (softmax_run []) = [] /\
  Log.value (sum_loop [] (Fin 0)) = Fin 0.
Proof. repeat split. Qed.

Lemma sum_exp_shift (c : R) (l : list R) :
  sum_exp (map (fun x => x + c) l) = exp c * sum_exp l.
Proof.
  induction l as [| x l IH]; simpl.
  - lra.
  - rewrite IH, exp_plus; lra.
Qed.

(** C10. In exact arithmetic [softmax] is shift-invariant: adding a constant
    [c] to every element of the input leaves the output unchanged. *)
Theorem softmax_shift_invariant (c : R) (l : list R) :
  softmax (map Fin (map (fun x => x + c) l)) = softmax (map Fin l).
Proof.
  rewrite !softmax_finite, map_map, sum_exp_shift.
  destruct l as [| x0 l0] eqn:E; [reflexivity |]; rewrite <- E.
  assert (Hpos : 0 < sum_exp l) by (apply sum_exp_pos; subst; discriminate).
  apply map_ext; intros x; f_equal.
  rewrite exp_plus.
  pose proof (exp_pos c); field; lra.
Qed.

(** ** The array expression of [cross_entropy] *)

Lemma length_map2 (f : npfloat -> npfloat -> npfloat) (a b : list npfloat) :
  length a = length b -> length (map2 f a b) = length a.
Proof.
  revert b; induction a as [| x a IH]; intros [| y b] H; simpl in *;
    try discriminate; [reflexivity |].
  now rewrite IH by lia.
Qed.

Lemma broadcast_same_length (f : npfloat -> npfloat -> npfloat)
  (a b : list npfloat) :
  length a = length b -> broadcast f a b = Ok (map2 f a b).
Proof.
  intros H; unfold broadcast.
  now rewrite (proj2 (Nat.eqb_eq _ _) H).
Qed.

Lemma map2_ce_term (Y P : list npfloat) :
  map2 np_add
    (map2 np_mul Y (map np_log P))
    (map2 np_mul (map (np_sub (Fin 1)) Y)
       (map np_log (map (np_sub (Fin 1)) P))) =
  map2 ce_term Y P.
Proof.
  revert P; induction Y as [| y Y IH]; intros [| p P]; simpl;
    try reflexivity.
  now rewrite IH.
Qed.

(** With equal lengths nothing is broadcast and nothing raises. *)
Lemma cross_entropy_map2 (Y P : list npfloat) :
  length Y = length P ->
  cross_entropy Y P = Ok (np_neg (np_sum (map2 ce_term Y P))).
Proof.
  intros H; unfold cross_entropy, np_float_.
  assert (H1 : length Y = length (map np_log P))
    by now rewrite length_map.
  assert (H2 : length (map (np_sub (Fin 1)) Y) =
               length (map np_log (map (np_sub (Fin 1)) P)))
    by now rewrite !length_map.
  rewrite (broadcast_same_length _ _ _ H1); simpl.
  rewrite (broadcast_same_length _ _ _ H2); simpl.
  rewrite broadcast_same_length; simpl.
  - now rewrite map2_ce_term.
  - rewrite (length_map2 _ _ _ H1), (length_map2 _ _ _ H2).
    now rewrite length_map.
Qed.

Lemma map2_nth (f : npfloat -> npfloat -> npfloat) (a b : list npfloat) :
  length a = length b ->
  map2 f a b = map (fun i => f (nth i a NaN) (nth i b NaN))
                   (seq 0 (length a)).
Proof.
  revert b; induction a as [| x a IH]; intros [| y b] H; simpl in *;
    try discriminate; [reflexivity |].
  f_equal.
  rewrite <- seq_shift, map_map.
  apply IH; lia.
Qed.

Lemma ce_formula_map2 (Y P : list npfloat) :
  length Y = length P ->
  np_neg (np_sum (map2 ce_term Y P)) = ce_formula Y P.
Proof.
  intros H; unfold ce_formula.
  now rewrite np_sum_fold_right, (map2_nth _ _ _ H).
Qed.

(** A stretched array is the array of the repeated element. *)
Lemma map_as_map2_l (f : npfloat -> npfloat -> npfloat) (x : npfloat)
  (b : list npfloat) :
  map (f x) b = map2 f (repeat x (length b)) b.
Proof. induction b as [| y b IH]; simpl; [| rewrite IH]; reflexivity. Qed.

Lemma map_as_map2_r (f : npfloat -> npfloat -> npfloat) (y : npfloat)
  (a : list npfloat) :
  map (fun x => f x y) a = map2 f a (repeat y (length a)).
Proof. induction a as [| x a IH]; simpl; [| rewrite IH]; reflexivity. Qed.

Lemma broadcast_stretch_l (f : npfloat -> npfloat -> npfloat) (x : npfloat)
  (b : list npfloat) :
  broadcast f [x] b = Ok (map2 f (repeat x (length b)) b).
Proof.
  unfold broadcast; simpl.
  destruct b as [| y [| z b]]; simpl; try reflexivity.
  now rewrite map_as_map2_l.
Qed.

Lemma broadcast_stretch_r (f : npfloat -> npfloat -> npfloat) (y : npfloat)
  (a : list npfloat) :
  broadcast f a [y] = Ok (map2 f a (repeat y (length a))).
Proof.
  unfold broadcast; simpl.
  destruct a as [| x [| z a]]; simpl; try reflexivity.
  now rewrite map_as_map2_r.
Qed.

(** A label of length one is stretched over the predictions. *)
Lemma cross_entropy_stretch_l (y : npfloat) (P : list npfloat) :
  cross_entropy [y] P = cross_entropy (repeat y (length P)) P.
Proof.
  rewrite (cross_entropy_map2 (repeat y (length P)) P)
    by apply repeat_length.
  unfold cross_entropy, np_float_; simpl map.
  rewrite !broadcast_stretch_l; simpl.
  rewrite !length_map.
  rewrite broadcast_same_length; simpl.
  - now rewrite <- map2_ce_term, map_repeat.
  - rewrite !length_map2; rewrite ?repeat_length, ?length_map; reflexivity.
Qed.

(** A prediction of length one is stretched over the labels. *)
Lemma cross_entropy_stretch_r (Y : list npfloat) (p : npfloat) :
  cross_entropy Y [p] = cross_entropy Y (repeat p (length Y)).
Proof.
  rewrite (cross_entropy_map2 Y (repeat p (length Y)))
    by (symmetry; apply repeat_length).
  unfold cross_entropy, np_float_; simpl map.
  rewrite !broadcast_stretch_r; simpl.
  rewrite !length_map.
  rewrite broadcast_same_length; simpl.
  - now rewrite <- map2_ce_term, !map_repeat.
  - rewrite !length_map2; rewrite ?repeat_length, ?length_map; reflexivity.
Qed.

(** ** [cross_entropy]: the claims *)

(** C2. On labels [Y] and predictions [P] of one length, [cross_entropy]
    returns [- sum over i of (y_i * ln p_i + (1 - y_i) * ln (1 - p_i))],
    the sum running over the indices of [Y]. *)
Theorem cross_entropy_formula (Y P : list npfloat) :
  length Y = length P ->
  cross_entropy Y P = Ok (ce_formula Y P).
Proof.
  intros H.
  rewrite (cross_entropy_map2 _ _ H).
  now rewrite (ce_formula_map2 _ _ H).
Qed.

Lemma cross_entropy_formula_witness :
  cross_entropy
    [Fin 1; Fin 0; Fin 1; Fin 1]
    [Fin (4 / 10); Fin (6 / 10); Fin (9 / 10); Fin (5 / 10)] =
  Ok (ce_formula
        [Fin 1; Fin 0; Fin 1; Fin 1]
        [Fin (4 / 10); Fin (6 / 10); Fin (9 / 10); Fin (5 / 10)]).
Proof.
  apply cross_entropy_formula; reflexivity.
Defined.

(** C5, as stated, fails when one of the two sequences has length one:
    NumPy stretches it, and a number comes back. *)
Lemma cross_entropy_mismatch_no_error :
  length [Fin 1] <> length [Fin (4 / 10); Fin (6 / 10)] /\
  cross_entropy [Fin 1] [Fin (4 / 10); Fin (6 / 10)] =
  Ok (Fin (- (ln (4 / 10) + ln (6 / 10)))).
Proof.
  split; [simpl; lia |].
  unfold cross_entropy, np_float_, broadcast, np_sum; simpl.
  rewrite !Rsign_pos by lra.
  simpl; do 2 f_equal; lra.
Qed.

(** C5, amended.  With labels and predictions of different lengths,
    [cross_entropy] raises NumPy's [ValueError] when neither length is one;
    a sequence of length one is stretched to the length of the other, and
    the formula of C2 is returned for the stretched pair. *)
Theorem cross_entropy_length_mismatch (Y P : list npfloat) :
  length Y <> length P ->
  (length Y <> 1%nat -> length P <> 1%nat ->
   cross_entropy Y P = Raise ValueError) /\
  (forall y, Y = [y] ->
   cross_entropy Y P = Ok (ce_formula (repeat y (length P)) P)) /\
  (forall p, P = [p] ->
   cross_entropy Y P = Ok (ce_formula Y (repeat p (length Y)))).
Proof.
  intros Hne; split; [| split].
  - intros HY HP; unfold cross_entropy, np_float_, broadcast.
    rewrite length_map.
    rewrite (proj2 (Nat.eqb_neq _ _) Hne).
    destruct Y as [| y [| y' Y]]; destruct P as [| p [| p' P]];
      simpl in *; try reflexivity; congruence.
  - intros y ->.
    rewrite cross_entropy_stretch_l, cross_entropy_map2
      by apply repeat_length.
    now rewrite ce_formula_map2 by apply repeat_length.
  - intros p ->.
    rewrite cross_entropy_stretch_r, cross_entropy_map2
      by (symmetry; apply repeat_length).
    now rewrite ce_formula_map2 by (symmetry; apply repeat_length).
Qed.

Lemma cross_entropy_length_mismatch_witness :
  cross_entropy [Fin 1; Fin 0] [Fin (4 / 10); Fin (6 / 10); Fin (9 / 10)] =
  Raise ValueError /\
  cross_entropy [Fin 1] [Fin (4 / 10); Fin (6 / 10)] =
  Ok (ce_formula [Fin 1; Fin 1] [Fin (4 / 10); Fin (6 / 10)]) /\
  cross_entropy [Fin 1; Fin 0] [Fin (4 / 10)] =
  Ok (ce_formula [Fin 1; Fin 0] [Fin (4 / 10); Fin (4 / 10)]).
Proof.
  split; [| split].
  - apply (cross_entropy_length_mismatch
             [Fin 1; Fin 0] [Fin (4 / 10); Fin (6 / 10); Fin (9 / 10)]);
      simpl; lia.
  - apply (cross_entropy_length_mismatch
             [Fin 1] [Fin (4 / 10); Fin (6 / 10)]);
      [simpl; lia | reflexivity].
  - apply (cross_entropy_length_mismatch
             [Fin 1; Fin 0] [Fin (4 / 10)]);
      [simpl; lia | reflexivity].
Defined.

(** A sum with a [-inf] among its terms is [-inf] or [nan]. *)
Lemma np_sum_NInf (a : list npfloat) :
  In NInf a -> np_sum a = NInf \/ np_sum a = NaN.
Proof.
  induction a as [| x a IH]; simpl; [contradiction |].
  rewrite np_sum_cons; intros [-> | Hin].
  - destruct (np_sum a); simpl; auto.
  - destruct (IH Hin) as [-> | ->]; destruct x; simpl; auto.
Qed.

Lemma ce_term_1_0 : ce_term (Fin 1) (Fin 0) = NInf.
Proof.
  unfold ce_term, np_sub; simpl.
  rewrite (Rsign_zero 0), (Rsign_pos (1 + - 0)) by lra; simpl.
  unfold scale_inf; now rewrite Rsign_pos by lra.
Qed.

Lemma ce_term_0_1 : ce_term (Fin 0) (Fin 1) = NInf.
Proof.
  unfold ce_term, np_sub; simpl.
  rewrite (Rsign_zero (1 + Ropp 1)), (Rsign_pos 1) by lra; simpl.
  unfold scale_inf; now rewrite Rsign_pos by lra.
Qed.

(** C6. With labels and predictions of one length, if at some index the
    prediction is exactly 0 and the label 1, or the prediction exactly 1 and
    the label 0, then [cross_entropy] returns a value that is not finite:
    [inf], or [nan] when another term is [inf] or [nan]. *)
Theorem cross_entropy_degenerate (Y P : list npfloat) (i : nat) :
  length Y = length P ->
  (i < length Y)%nat ->
  (nth i Y NaN = Fin 1 /\ nth i P NaN = Fin 0) \/
  (nth i Y NaN = Fin 0 /\ nth i P NaN = Fin 1) ->
  exists v, cross_entropy Y P = Ok v /\
            is_finite v = false /\ (v = PInf \/ v = NaN).
Proof.
  intros Hlen Hi Hdeg.
  rewrite (cross_entropy_map2 _ _ Hlen).
  assert (Hin : In NInf (map2 ce_term Y P)).
  { rewrite (map2_nth _ _ _ Hlen).
    apply in_map_iff; exists i; split.
    - destruct Hdeg as [[-> ->] | [-> ->]];
        [apply ce_term_1_0 | apply ce_term_0_1].
    - apply in_seq; lia. }
  eexists; split; [reflexivity |].
  destruct (np_sum_NInf _ Hin) as [-> | ->]; simpl; auto.
Qed.

Lemma cross_entropy_degenerate_witness :
  exists v, cross_entropy [Fin 1; Fin 0] [Fin 0; Fin (1 / 2)] = Ok v /\
            is_finite v = false /\ (v = PInf \/ v = NaN).
Proof.
  apply (cross_entropy_degenerate [Fin 1; Fin 0] [Fin 0; Fin (1 / 2)] 0).
  - reflexivity.
  - simpl; lia.
  - left; split; reflexivity.
Defined.

(** Both outcomes of C6 occur. *)
Example degenerate_gives_inf :
  cross_entropy [Fin 1] [Fin 0] = Ok PInf.
Proof.
  rewrite cross_entropy_map2 by reflexivity; simpl map2.
  now rewrite ce_term_1_0.
Qed.

Example degenerate_gives_nan :
  cross_entropy [Fin 1; Fin 0] [Fin 0; Fin 0] = Ok NaN.
Proof.
  rewrite cross_entropy_map2 by reflexivity; simpl map2.
  rewrite ce_term_1_0.
  assert (E : ce_term (Fin 0) (Fin 0) = NaN).
  { unfold ce_term, np_sub; simpl.
    rewrite (Rsign_zero 0) by lra; simpl.
    unfold scale_inf; now rewrite (Rsign_zero 0) by lra. }
  now rewrite E.
Qed.

(** ** [cross_entropy] on real labels and predictions in (0,1) *)

Lemma ce_term_Fin (y p : R) :
  0 < p < 1 -> ce_term (Fin y) (Fin p) = Fin (ce_term_R y p).
Proof.
  intros Hp; unfold ce_term, np_sub; simpl.
  now rewrite (Rsign_pos p), (Rsign_pos (1 + Ropp p)) by lra.
Qed.

Lemma nth_map_Fin (l : list R) (i : nat) :
  (i < length l)%nat -> nth i (map Fin l) NaN = Fin (nth i l 0).
Proof.
  intros Hi.
  rewrite (nth_indep _ NaN (Fin 0)) by (now rewrite length_map).
  apply (map_nth Fin).
Qed.

(** Within the domain of the logarithms the result is the real formula. *)
Lemma cross_entropy_Fin (ys ps : list R) :
  length ys = length ps ->
  Forall (fun p => 0 < p < 1) ps ->
  cross_entropy (map Fin ys) (map Fin ps) = Ok (Fin (ce_formula_R ys ps)).
Proof.
  intros Hlen Hps.
  assert (Hlen' : length (map Fin ys) = length (map Fin ps))
    by now rewrite !length_map.
  rewrite (cross_entropy_map2 _ _ Hlen'), (map2_nth _ _ _ Hlen').
  rewrite length_map.
  rewrite (map_ext_in _
             (fun i => Fin (ce_term_R (nth i ys 0) (nth i ps 0)))).
  - rewrite <- (map_map _ Fin), np_sum_Fin; reflexivity.
  - intros i Hi; apply in_seq in Hi.
    rewrite !nth_map_Fin by lia.
    apply ce_term_Fin.
    apply (proj1 (Forall_forall _ ps) Hps), nth_In; lia.
Qed.

Lemma Rsum_nonpos (l : list R) :
  (forall x, In x l -> x <= 0) -> Rsum l <= 0.
Proof.
  induction l as [| x l IH]; intros H; simpl.
  - lra.
  - pose proof (H x (or_introl eq_refl)).
    assert (Rsum l <= 0) by (apply IH; intros; apply H; now right).
    lra.
Qed.

Lemma ln_neg (x : R) : 0 < x < 1 -> ln x < 0.
Proof.
  intros [H0 H1]; rewrite <- ln_1; now apply ln_increasing.
Qed.

Lemma ce_term_R_nonpos (y p : R) :
  0 <= y <= 1 -> 0 < p < 1 -> ce_term_R y p <= 0.
Proof.
  intros Hy Hp; unfold ce_term_R.
  pose proof (ln_neg p Hp).
  assert (ln (1 - p) < 0) by (apply ln_neg; lra).
  nra.
Qed.

(** C7. With labels in [0,1] and predictions in the open interval (0,1), of
    one length, [cross_entropy] returns a non-negative real number. *)
Theorem cross_entropy_nonneg (ys ps : list R) :
  length ys = length ps ->
  Forall (fun y => 0 <= y <= 1) ys ->
  Forall (fun p => 0 < p < 1) ps ->
  exists r, cross_entropy (map Fin ys) (map Fin ps) = Ok (Fin r) /\ 0 <= r.
Proof.
  intros Hlen Hys Hps.
  rewrite (cross_entropy_Fin _ _ Hlen Hps).
  eexists; split; [reflexivity |].
  unfold ce_formula_R.
  match goal with |- 0 <= - ?s => assert (s <= 0); [| lra] end.
  apply Rsum_nonpos; intros x Hx.
  apply in_map_iff in Hx as (i & <- & Hi); apply in_seq in Hi.
  apply ce_term_R_nonpos.
  - apply (proj1 (Forall_forall _ ys) Hys), nth_In; lia.
  - apply (proj1 (Forall_forall _ ps) Hps), nth_In; lia.
Qed.

Lemma cross_entropy_nonneg_witness :
  exists r,
    cross_entropy
      (map Fin [1; 0; 1; 1])
      (map Fin [4 / 10; 6 / 10; 9 / 10; 5 / 10]) = Ok (Fin r) /\
    0 <= r.
Proof.
  apply (cross_entropy_nonneg [1; 0; 1; 1] [4 / 10; 6 / 10; 9 / 10; 5 / 10]).
  - reflexivity.
  - repeat constructor; lra.
  - repeat constructor; lra.
Defined.

Lemma ce_term_half : ce_term (Fin (1 / 2)) (Fin (1 / 2)) = Fin (- ln 2).
Proof.
  rewrite ce_term_Fin by lra; f_equal; unfold ce_term_R.
  replace (1 - 1 / 2) with (/ 2) by lra.
  replace (1 / 2) with (/ 2) by lra.
  rewrite ln_Rinv by lra; lra.
Qed.

Lemma np_sum_repeat (c : R) (n : nat) :
  np_sum (repeat (Fin c) n) = Fin (INR n * c).
Proof.
  induction n as [| n IH].
  - simpl; unfold np_sum; simpl; f_equal; lra.
  - change (repeat (Fin c) (S n)) with (Fin c :: repeat (Fin c) n).
    rewrite np_sum_cons, IH, S_INR; simpl; f_equal; lra.
Qed.

Lemma map2_repeat (f : npfloat -> npfloat -> npfloat) (x y : npfloat)
  (n : nat) :
  map2 f (repeat x n) (repeat y n) = repeat (f x y) n.
Proof. induction n as [| n IH]; simpl; [| rewrite IH]; reflexivity. Qed.

(** C8. On two sequences of length N >= 1 whose entries are all 0.5,
    [cross_entropy] returns [N * ln 2], a finite positive number. *)
Theorem cross_entropy_all_half (N : nat) :
  (1 <= N)%nat ->
  cross_entropy (repeat (Fin (1 / 2)) N) (repeat (Fin (1 / 2)) N) =
  Ok (Fin (INR N * ln 2)) /\
  0 < INR N * ln 2.
Proof.
  intros HN; split.
  - rewrite cross_entropy_map2 by reflexivity.
    rewrite map2_repeat, ce_term_half, np_sum_repeat; simpl.
    do 2 f_equal; lra.
  - apply Rmult_lt_0_compat.
    + apply lt_0_INR; lia.
    + pose proof ln_lt_2; lra.
Qed.

Lemma cross_entropy_all_half_witness :
  cross_entropy (repeat (Fin (1 / 2)) 3) (repeat (Fin (1 / 2)) 3) =
  Ok (Fin (INR 3 * ln 2)) /\
  0 < INR 3 * ln 2.
Proof.
  apply (cross_entropy_all_half 3); lia.
Defined.

(** * Further properties of [softmax] *)

(** The denominator after the first loop. *)
Lemma softmax_denominator (L : list npfloat) :
  Log.value (sum_loop L (Fin 0)) = np_sum (map np_exp L).
Proof. rewrite sum_loop_value; apply fold_left_np_exp. Qed.

(** The returned list, for every input. *)
Lemma softmax_map (L : list npfloat) :
  softmax L = map (fun i => np_div (np_exp i) (np_sum (map np_exp L))) L.
Proof. rewrite softmax_unfold, fold_left_np_exp; reflexivity. Qed.

Ltac loop_trace L IH :=
  let i := fresh "i" in
  induction L as [| i L IH]; intros; simpl; [reflexivity |];
  match goal with
  | |- context [sum_loop L ?d] =>
      specialize (IH d); unfold Log.trace in *;
      destruct (sum_loop L d); simpl in *
  | |- context [div_loop L ?d ?acc] =>
      specialize (IH acc); unfold Log.trace in *;
      destruct (div_loop L d acc); simpl in *
  end.

Lemma sum_loop_exps (L : list npfloat) :
  forall d, length (filter is_exp (Log.trace (sum_loop L d))) = length L.
Proof. loop_trace L IH; now rewrite IH. Qed.

Lemma sum_loop_adds (L : list npfloat) :
  forall d, length (filter is_add (Log.trace (sum_loop L d))) = length L.
Proof. loop_trace L IH; now rewrite IH. Qed.

Lemma div_loop_exps (L : list npfloat) (d : npfloat) :
  forall acc,
    length (filter is_exp (Log.trace (div_loop L d acc))) = length L.
Proof. loop_trace L IH; now rewrite IH. Qed.

Lemma div_loop_adds (L : list npfloat) (d : npfloat) :
  forall acc, filter is_add (Log.trace (div_loop L d acc)) = [].
Proof. loop_trace L IH; exact IH. Qed.

Lemma div_loop_divs (L : list npfloat) (d : npfloat) :
  forall acc,
    filter is_div (Log.trace (div_loop L d acc)) =
    map (fun i => EvDiv (np_exp i) d) L.
Proof. loop_trace L IH; now rewrite IH. Qed.

(** The log of a run is the log of the first loop, then of the second. *)
Lemma softmax_run_trace (L : list npfloat) :
  Log.trace (softmax_run L) =
  Log.trace (sum_loop L (Fin 0)) ++
  Log.trace (div_loop L (Log.value (sum_loop L (Fin 0))) []).
Proof.
  unfold softmax_run, Log.bind, Log.trace, Log.value.
  destruct (sum_loop L (Fin 0)) as [d t]; simpl.
  destruct (div_loop L d []) as [r t']; reflexivity.
Qed.

(** X1. On every list of N numbers, finite or not, [softmax] returns N
    values and performs exactly 2N exponentials, N additions and N
    divisions: each exponential is computed twice. *)
Theorem softmax_operation_count (L : list npfloat) :
  length (softmax L) = length L /\
  length (filter is_exp (Log.trace (softmax_run L))) = (2 * length L)%nat /\
  length (filter is_add (Log.trace (softmax_run L))) = length L /\
  length (filter is_div (Log.trace (softmax_run L))) = length L.
Proof.
  rewrite softmax_run_trace, !filter_app, !length_app.
  rewrite sum_loop_exps, sum_loop_adds, sum_loop_trace.
  rewrite div_loop_exps, div_loop_adds, div_loop_trace.
  rewrite softmax_map, length_map; simpl; repeat split; lia.
Qed.

(** X2. Every division of a run has the same divisor, the sum of the
    exponentials of the whole input, and the divisions are made in the order
    of the input, one for each element. *)
Theorem softmax_divisions_by_total (L : list npfloat) :
  filter is_div (Log.trace (softmax_run L)) =
  map (fun i => EvDiv (np_exp i) (np_sum (map np_exp L))) L.
Proof.
  rewrite softmax_run_trace, filter_app, sum_loop_trace, div_loop_divs.
  now rewrite softmax_denominator.
Qed.

Lemma np_sum_NaN (a : list npfloat) : In NaN a -> np_sum a = NaN.
Proof.
  induction a as [| x a IH]; simpl; [contradiction |].
  rewrite np_sum_cons; intros [-> | Hin]; [reflexivity |].
  rewrite (IH Hin); destruct x; reflexivity.
Qed.

Lemma np_div_NaN (x : npfloat) : np_div x NaN = NaN.
Proof. destruct x; reflexivity. Qed.

(** X3. One [nan] in the input makes every output [nan]. *)
Theorem softmax_nan_input (L : list npfloat) :
  In NaN L -> softmax L = repeat NaN (length L).
Proof.
  intros Hin; rewrite softmax_map.
  rewrite (np_sum_NaN (map np_exp L))
    by (change NaN with (np_exp NaN); now apply in_map).
  clear Hin; induction L as [| x L IH]; simpl; [reflexivity |].
  now rewrite IH, np_div_NaN.
Qed.

Lemma softmax_nan_input_witness :
  softmax [Fin 1; NaN; Fin 2] = repeat NaN 3.
Proof.
  apply (softmax_nan_input [Fin 1; NaN; Fin 2]).
  simpl; auto.
Defined.



(** X5. On an input made of [-inf] only, every exponential is 0, the
    denominator is 0, and every output is [0 / 0 = nan]. *)
Theorem softmax_all_neg_inf (N : nat) :
  Log.value (sum_loop (repeat NInf N) (Fin 0)) = Fin 0 /\
  softmax (repeat NInf N) = repeat NaN N.
Proof.
  split.
  - rewrite softmax_denominator, map_repeat; simpl.
    rewrite np_sum_repeat; f_equal; lra.
  - rewrite softmax_map, !map_repeat; simpl.
    rewrite np_sum_repeat; simpl.
    rewrite (Rsign_zero (INR N * 0)) by lra.
    unfold scale_inf; now rewrite Rsign_zero.
Qed.

(** The i-th output on real inputs. *)
Lemma softmax_nth (l : list R) (i : nat) :
  (i < length l)%nat ->
  nth i (softmax (map Fin l)) NaN = Fin (exp (nth i l 0) / sum_exp l).
Proof.
  intros Hi; rewrite softmax_finite.
  rewrite (nth_indep _ NaN (Fin (exp 0 / sum_exp l)))
    by (now rewrite length_map).
  exact (map_nth (fun x => Fin (exp x / sum_exp l)) l 0 i).
Qed.

Lemma sum_exp_pos_nth (l : list R) (i : nat) :
  (i < length l)%nat -> 0 < sum_exp l.
Proof.
  intros Hi; apply sum_exp_pos; intros ->; simpl in Hi; lia.
Qed.

Lemma exp_le_iff (x y : R) : exp x <= exp y <-> x <= y.
Proof.
  split; intros H.
  - destruct (Rle_or_lt x y) as [Hle | Hlt]; [exact Hle |].
    apply exp_increasing in Hlt; lra.
  - destruct H as [Hlt | ->]; [| lra].
    apply exp_increasing in Hlt; lra.
Qed.

(** X6. In exact arithmetic [softmax] preserves the order of the scores: on
    real inputs the i-th output is at most the j-th exactly when the i-th
    score is at most the j-th; so the largest score gets the largest
    probability. *)
Theorem softmax_monotone (l : list R) (i j : nat) :
  (i < length l)%nat -> (j < length l)%nat ->
  exists a b,
    nth i (softmax (map Fin l)) NaN = Fin a /\
    nth j (softmax (map Fin l)) NaN = Fin b /\
    (a <= b <-> nth i l 0 <= nth j l 0).
Proof.
  intros Hi Hj.
  rewrite (softmax_nth l i Hi), (softmax_nth l j Hj).
  do 2 eexists; split; [reflexivity | split; [reflexivity |]].
  pose proof (sum_exp_pos_nth l i Hi) as Hpos.
  rewrite <- (exp_le_iff (nth i l 0) (nth j l 0)).
  unfold Rdiv; split; intros H.
  - apply (Rmult_le_reg_r (/ sum_exp l)); [| exact H].
    now apply Rinv_0_lt_compat.
  - apply Rmult_le_compat_r; [| exact H].
    left; now apply Rinv_0_lt_compat.
Qed.

Lemma softmax_monotone_witness :
  exists a b,
    nth 0 (softmax (map Fin [5; 6; 7])) NaN = Fin a /\
    nth 2 (softmax (map Fin [5; 6; 7])) NaN = Fin b /\
    (a <= b <-> nth 0 [5; 6; 7] 0 <= nth 2 [5; 6; 7] 0).
Proof.
  apply (softmax_monotone [5; 6; 7] 0 2); simpl; lia.
Defined.

Lemma sum_exp_repeat (c : R) (N : nat) :
  sum_exp (repeat c N) = INR N * exp c.
Proof.
  induction N as [| N IH].
  - simpl; lra.
  - change (repeat c (S N)) with (c :: repeat c N).
    simpl sum_exp; rewrite IH, S_INR; lra.
Qed.

(** X7. In exact arithmetic [softmax] returns the uniform distribution on N
    equal real scores: every output is [1 / N], whatever the common
    score. *)
Theorem softmax_uniform (c : R) (N : nat) :
  softmax (map Fin (repeat c N)) = repeat (Fin (1 / INR N)) N.
Proof.
  rewrite softmax_finite, map_repeat, sum_exp_repeat.
  destruct N as [| N]; [reflexivity |].
  do 2 f_equal.
  pose proof (exp_pos c).
  assert (0 < INR (S N)) by (apply lt_0_INR; lia).
  field; split; lra.
Qed.

(** X8. In exact arithmetic the ratio of two outputs depends on the
    difference of their two scores only:
    [out_i = out_j * exp (l_i - l_j)]. *)
Theorem softmax_ratio (l : list R) (i j : nat) :
  (i < length l)%nat -> (j < length l)%nat ->
  exists a b,
    nth i (softmax (map Fin l)) NaN = Fin a /\
    nth j (softmax (map Fin l)) NaN = Fin b /\
    a = b * exp (nth i l 0 - nth j l 0).
Proof.
  intros Hi Hj.
  rewrite (softmax_nth l i Hi), (softmax_nth l j Hj).
  do 2 eexists; split; [reflexivity | split; [reflexivity |]].
  pose proof (sum_exp_pos_nth l i Hi) as Hpos.
  pose proof (exp_pos (nth j l 0)).
  unfold Rminus; rewrite exp_plus, exp_Ropp.
  field; split; lra.
Qed.

Lemma softmax_ratio_witness :
  exists a b,
    nth 2 (softmax (map Fin [5; 6; 7])) NaN = Fin a /\
    nth 0 (softmax (map Fin [5; 6; 7])) NaN = Fin b /\
    a = b * exp (nth 2 [5; 6; 7] 0 - nth 0 [5; 6; 7] 0).
Proof.
  apply (softmax_ratio [5; 6; 7] 2 0); simpl; lia.
Defined.

(** X9. In exact arithmetic [softmax] on two real scores is the logistic
    sigmoid of their difference: [softmax [a, b] = [1 / (1 + exp (b - a)),
    1 / (1 + exp (a - b))]]. *)
Theorem softmax_pair_sigmoid (a b : R) :
  softmax (map Fin [a; b]) =
  [Fin (1 / (1 + exp (b - a))); Fin (1 / (1 + exp (a - b)))].
Proof.
  rewrite softmax_finite; simpl.
  pose proof (exp_pos a); pose proof (exp_pos b).
  unfold Rminus; rewrite !exp_plus, !exp_Ropp.
  f_equal; [f_equal | f_equal; f_equal]; field; repeat split; lra.
Qed.

Lemma np_sum_Permutation (a b : list npfloat) :
  Permutation a b -> np_sum a = np_sum b.
Proof.
  induction 1 as [| x a b _ IH | x y a | a b c _ IH1 _ IH2].
  - reflexivity.
  - now rewrite !np_sum_cons, IH.
  - rewrite !np_sum_cons, !np_add_assoc.
    now rewrite (np_add_comm y x).
  - now rewrite IH1.
Qed.

(** X10. In exact arithmetic the output follows a reordering of the input.
    The denominator does not depend on the order of the additions, so in
    the input and in any permutation of it an element [x] gets the same
    output, [exp x] divided by that denominator: permuting the scores
    permutes the outputs in the same way. *)
Theorem softmax_Permutation (L L' : list npfloat) :
  Permutation L L' ->
  softmax L =
  map (fun x => np_div (np_exp x) (np_sum (map np_exp L))) L /\
  softmax L' =
  map (fun x => np_div (np_exp x) (np_sum (map np_exp L))) L' /\
  Permutation (softmax L) (softmax L').
Proof.
  intros HP.
  assert (E : np_sum (map np_exp L) = np_sum (map np_exp L'))
    by (apply np_sum_Permutation; now apply Permutation_map).
  split; [apply softmax_map |].
  split; [rewrite E; apply softmax_map |].
  rewrite !softmax_map, E.
  now apply Permutation_map.
Qed.

Lemma softmax_Permutation_witness :
  softmax [Fin 5; Fin 6; Fin 7] =
  map (fun x => np_div (np_exp x)
                  (np_sum (map np_exp [Fin 5; Fin 6; Fin 7])))
      [Fin 5; Fin 6; Fin 7] /\
  softmax [Fin 7; Fin 5; Fin 6] =
  map (fun x => np_div (np_exp x)
                  (np_sum (map np_exp [Fin 5; Fin 6; Fin 7])))
      [Fin 7; Fin 5; Fin 6] /\
  Permutation (softmax [Fin 5; Fin 6; Fin 7]) (softmax [Fin 7; Fin 5; Fin 6]).
Proof.
  apply (softmax_Permutation [Fin 5; Fin 6; Fin 7] [Fin 7; Fin 5; Fin 6]).
  apply Permutation_sym, (Permutation_cons_app [Fin 5; Fin 6] []).
  apply Permutation_refl.
Defined.

(** * Further properties of [cross_entropy] *)

Lemma cross_entropy_raises (Y P : list npfloat) :
  length Y <> length P -> length Y <> 1%nat -> length P <> 1%nat ->
  cross_entropy Y P = Raise ValueError.
Proof.
  intros Hne HY HP; unfold cross_entropy, np_float_, broadcast.
  rewrite length_map, (proj2 (Nat.eqb_neq _ _) Hne).
  destruct Y as [| y [| y' Y]]; destruct P as [| p [| p' P]];
    simpl in *; try reflexivity; congruence.
Qed.

(** X11. [cross_entropy] raises exactly when the two lengths differ and
    neither of them is 1; in every other case it returns a number. *)
Theorem cross_entropy_raises_iff (Y P : list npfloat) :
  cross_entropy Y P = Raise ValueError <->
  length Y <> length P /\ length Y <> 1%nat /\ length P <> 1%nat.
Proof.
  split.
  - intros H.
    destruct (Nat.eq_dec (length Y) (length P)) as [E | NE].
    { rewrite (cross_entropy_map2 _ _ E) in H; discriminate. }
    split; [exact NE |]; split; intros E1.
    + destruct Y as [| y [| y' Y]]; simpl in E1; try lia.
      rewrite cross_entropy_stretch_l, cross_entropy_map2 in H
        by apply repeat_length.
      discriminate.
    + destruct P as [| p [| p' P]]; simpl in E1; try lia.
      rewrite cross_entropy_stretch_r, cross_entropy_map2 in H
        by (symmetry; apply repeat_length).
      discriminate.
  - intros (H1 & H2 & H3); now apply cross_entropy_raises.
Qed.

(** X21. With an empty sequence on either side, [cross_entropy] returns 0
    when the other sequence has at most one element, and raises when it has
    two or more. *)
Theorem cross_entropy_empty (L : list npfloat) :
  ((length L <= 1)%nat ->
   cross_entropy [] L = Ok (Fin 0) /\ cross_entropy L [] = Ok (Fin 0)) /\
  ((2 <= length L)%nat ->
   cross_entropy [] L = Raise ValueError /\
   cross_entropy L [] = Raise ValueError).
Proof.
  split; intros H.
  - destruct L as [| x [| y L]]; simpl in H; try lia;
      unfold cross_entropy, np_float_, broadcast, np_sum; simpl;
      rewrite Ropp_0; split; reflexivity.
  - split; apply cross_entropy_raises; simpl; lia.
Qed.

Lemma cross_entropy_empty_witness :
  (cross_entropy [] [Fin (1 / 2)] = Ok (Fin 0) /\
   cross_entropy [Fin (1 / 2)] [] = Ok (Fin 0)) /\
  (cross_entropy [] [Fin (1 / 2); Fin (1 / 2)] = Raise ValueError /\
   cross_entropy [Fin (1 / 2); Fin (1 / 2)] [] = Raise ValueError).
Proof.
  split.
  - apply (cross_entropy_empty [Fin (1 / 2)]); simpl; lia.
  - apply (cross_entropy_empty [Fin (1 / 2); Fin (1 / 2)]); simpl; lia.
Defined.

(** One [nan] summand makes the loss [nan]. *)
Lemma cross_entropy_term_NaN (Y P : list npfloat) (i : nat) :
  length Y = length P -> (i < length Y)%nat ->
  ce_term (nth i Y NaN) (nth i P NaN) = NaN ->
  cross_entropy Y P = Ok NaN.
Proof.
  intros Hlen Hi Hterm.
  rewrite (cross_entropy_map2 _ _ Hlen).
  rewrite np_sum_NaN; [reflexivity |].
  rewrite (map2_nth _ _ _ Hlen).
  apply in_map_iff; exists i; split; [exact Hterm |].
  apply in_seq; lia.
Qed.

Lemma ce_term_1_1 : ce_term (Fin 1) (Fin 1) = NaN.
Proof.
  unfold ce_term, np_sub; simpl.
  rewrite (Rsign_pos 1), (Rsign_zero (1 + Ropp 1)) by lra; simpl.
  unfold scale_inf; now rewrite Rsign_zero by lra.
Qed.

Lemma ce_term_0_0 : ce_term (Fin 0) (Fin 0) = NaN.
Proof.
  unfold ce_term, np_sub; simpl.
  rewrite (Rsign_zero 0) by lra; simpl.
  unfold scale_inf; now rewrite (Rsign_zero 0) by lra.
Qed.

(** X12. A prediction that is exactly right does not give a zero summand:
    where the label is 1 and the prediction exactly 1, or the label 0 and
    the prediction exactly 0, the summand is [0 * ln 0 = nan], and the loss
    returned is [nan]. *)
Theorem cross_entropy_exact_prediction (Y P : list npfloat) (i : nat) :
  length Y = length P ->
  (i < length Y)%nat ->
  (nth i Y NaN = Fin 1 /\ nth i P NaN = Fin 1) \/
  (nth i Y NaN = Fin 0 /\ nth i P NaN = Fin 0) ->
  cross_entropy Y P = Ok NaN.
Proof.
  intros Hlen Hi Hex.
  apply (cross_entropy_term_NaN Y P i Hlen Hi).
  destruct Hex as [[-> ->] | [-> ->]];
    [apply ce_term_1_1 | apply ce_term_0_0].
Qed.

Lemma cross_entropy_exact_prediction_witness :
  cross_entropy [Fin 1; Fin 0] [Fin 1; Fin (1 / 2)] = Ok NaN.
Proof.
  apply (cross_entropy_exact_prediction
           [Fin 1; Fin 0] [Fin 1; Fin (1 / 2)] 0).
  - reflexivity.
  - simpl; lia.
  - left; split; reflexivity.
Defined.

Lemma np_mul_NaN_r (x : npfloat) : np_mul x NaN = NaN.
Proof. destruct x; reflexivity. Qed.

Lemma np_add_NaN_r (x : npfloat) : np_add x NaN = NaN.
Proof. destruct x; reflexivity. Qed.

(** X13. A prediction outside [0, 1] makes the loss [nan], whatever the
    labels: one of the two logarithms is taken of a negative number. *)
Theorem cross_entropy_prediction_out_of_range
  (Y P : list npfloat) (i : nat) (p : R) :
  length Y = length P ->
  (i < length Y)%nat ->
  nth i P NaN = Fin p ->
  p < 0 \/ 1 < p ->
  cross_entropy Y P = Ok NaN.
Proof.
  intros Hlen Hi Hp Hout.
  apply (cross_entropy_term_NaN Y P i Hlen Hi).
  rewrite Hp; unfold ce_term, np_sub; simpl.
  destruct Hout as [Hneg | Hbig].
  - rewrite (Rsign_neg p Hneg), np_mul_NaN_r; reflexivity.
  - rewrite (Rsign_neg (1 + Ropp p)) by lra.
    now rewrite np_mul_NaN_r, np_add_NaN_r.
Qed.

Lemma cross_entropy_prediction_out_of_range_witness :
  cross_entropy [Fin 1; Fin 0] [Fin (1 / 2); Fin 2] = Ok NaN.
Proof.
  apply (cross_entropy_prediction_out_of_range
           [Fin 1; Fin 0] [Fin (1 / 2); Fin 2] 1 2).
  - reflexivity.
  - simpl; lia.
  - reflexivity.
  - right; lra.
Defined.

(** X14. A [nan] among the labels or among the predictions makes the loss
    [nan]. *)
Theorem cross_entropy_nan_input (Y P : list npfloat) (i : nat) :
  length Y = length P ->
  (i < length Y)%nat ->
  nth i Y NaN = NaN \/ nth i P NaN = NaN ->
  cross_entropy Y P = Ok NaN.
Proof.
  intros Hlen Hi Hnan.
  apply (cross_entropy_term_NaN Y P i Hlen Hi).
  unfold ce_term; destruct Hnan as [-> | ->]; simpl.
  - reflexivity.
  - now rewrite !np_mul_NaN_r.
Qed.

Lemma cross_entropy_nan_input_witness :
  cross_entropy [Fin 1; Fin 0] [Fin (1 / 2); NaN] = Ok NaN.
Proof.
  apply (cross_entropy_nan_input [Fin 1; Fin 0] [Fin (1 / 2); NaN] 1).
  - reflexivity.
  - simpl; lia.
  - right; reflexivity.
Defined.

Lemma np_neg_add (x y : npfloat) :
  np_neg (np_add x y) = np_add (np_neg x) (np_neg y).
Proof. destruct x, y; simpl; try reflexivity; f_equal; lra. Qed.

Lemma np_sum_app (a b : list npfloat) :
  np_sum (a ++ b) = np_add (np_sum a) (np_sum b).
Proof.
  induction a as [| x a IH].
  - exact (eq_sym (np_add_0_l (np_sum b))).
  - change ((x :: a) ++ b) with (x :: (a ++ b)).
    now rewrite !np_sum_cons, IH, np_add_assoc.
Qed.

Lemma map2_app (f : npfloat -> npfloat -> npfloat)
  (a a' b b' : list npfloat) :
  length a = length b ->
  map2 f (a ++ a') (b ++ b') = map2 f a b ++ map2 f a' b'.
Proof.
  revert b; induction a as [| x a IH]; intros [| y b] H; simpl in *;
    try discriminate; [reflexivity |].
  now rewrite IH by lia.
Qed.

(** X15. In exact arithmetic the loss is additive over concatenation: for
    two pairs of sequences, each of one length, the loss of the concatenated
    labels and predictions is the sum of the two losses. *)
Theorem cross_entropy_app (Y1 P1 Y2 P2 : list npfloat) :
  length Y1 = length P1 ->
  length Y2 = length P2 ->
  exists a b,
    cross_entropy Y1 P1 = Ok a /\
    cross_entropy Y2 P2 = Ok b /\
    cross_entropy (Y1 ++ Y2) (P1 ++ P2) = Ok (np_add a b).
Proof.
  intros H1 H2.
  rewrite (cross_entropy_map2 _ _ H1), (cross_entropy_map2 _ _ H2).
  rewrite cross_entropy_map2 by (rewrite !length_app; lia).
  do 2 eexists; split; [reflexivity | split; [reflexivity |]].
  now rewrite (map2_app _ _ _ _ _ H1), np_sum_app, np_neg_add.
Qed.

Lemma cross_entropy_app_witness :
  exists a b,
    cross_entropy [Fin 1] [Fin (4 / 10)] = Ok a /\
    cross_entropy [Fin 0; Fin 1] [Fin (6 / 10); Fin (9 / 10)] = Ok b /\
    cross_entropy ([Fin 1] ++ [Fin 0; Fin 1])
                  ([Fin (4 / 10)] ++ [Fin (6 / 10); Fin (9 / 10)]) =
    Ok (np_add a b).
Proof.
  apply (cross_entropy_app
           [Fin 1] [Fin (4 / 10)]
           [Fin 0; Fin 1] [Fin (6 / 10); Fin (9 / 10)]);
    reflexivity.
Defined.

Lemma np_sub_1_involutive (x : npfloat) :
  np_sub (Fin 1) (np_sub (Fin 1) x) = x.
Proof. destruct x; unfold np_sub; simpl; try reflexivity; f_equal; lra. Qed.

Lemma map_np_sub_1_involutive (a : list npfloat) :
  map (np_sub (Fin 1)) (map (np_sub (Fin 1)) a) = a.
Proof.
  induction a as [| x a IH]; [reflexivity |].
  change (np_sub (Fin 1) (np_sub (Fin 1) x) ::
          map (np_sub (Fin 1)) (map (np_sub (Fin 1)) a) = x :: a).
  now rewrite IH, np_sub_1_involutive.
Qed.

Lemma map2_np_add_comm (a b : list npfloat) :
  map2 np_add a b = map2 np_add b a.
Proof.
  revert b; induction a as [| x a IH]; intros [| y b]; simpl;
    try reflexivity.
  now rewrite IH, np_add_comm.
Qed.

Lemma broadcast_np_add_comm (a b : list npfloat) :
  broadcast np_add a b = broadcast np_add b a.
Proof.
  unfold broadcast; rewrite (Nat.eqb_sym (length b) (length a)).
  destruct (Nat.eqb (length a) (length b)) eqn:E.
  - now rewrite map2_np_add_comm.
  - apply Nat.eqb_neq in E.
    destruct a as [| x [| x' a]]; destruct b as [| y [| y' b]];
      simpl in E; try congruence; try reflexivity;
      cbv beta iota; f_equal; apply map_ext; intros z; apply np_add_comm.
Qed.

(** X16. In exact arithmetic the loss does not change when the two classes
    are exchanged: replacing every label [y] by [1 - y] and every prediction
    [p] by [1 - p] exchanges the two products of each summand.  This holds
    for all inputs, the raising ones included. *)
Theorem cross_entropy_complement (Y P : list npfloat) :
  cross_entropy (map (np_sub (Fin 1)) Y) (map (np_sub (Fin 1)) P) =
  cross_entropy Y P.
Proof.
  unfold cross_entropy, np_float_.
  rewrite !map_np_sub_1_involutive.
  destruct (broadcast np_mul Y (map np_log P)) as [a | []];
    destruct (broadcast np_mul (map (np_sub (Fin 1)) Y)
                (map np_log (map (np_sub (Fin 1)) P))) as [b | []];
    simpl; try reflexivity.
  now rewrite broadcast_np_add_comm.
Qed.

Lemma map2_combine (f : npfloat -> npfloat -> npfloat) (a b : list npfloat) :
  map2 f a b = map (fun yp => f (fst yp) (snd yp)) (combine a b).
Proof.
  revert b; induction a as [| x a IH]; intros [| y b]; simpl;
    try reflexivity.
  now rewrite IH.
Qed.

(** X17. In exact arithmetic the loss does not depend on the order of the
    examples: reordering the (label, prediction) pairs leaves it
    unchanged. *)
Theorem cross_entropy_Permutation (Y P Y' P' : list npfloat) :
  length Y = length P ->
  length Y' = length P' ->
  Permutation (combine Y P) (combine Y' P') ->
  cross_entropy Y P = cross_entropy Y' P'.
Proof.
  intros H H' HP.
  rewrite (cross_entropy_map2 _ _ H), (cross_entropy_map2 _ _ H').
  rewrite !map2_combine.
  do 2 f_equal; apply np_sum_Permutation.
  now apply Permutation_map.
Qed.

Lemma cross_entropy_Permutation_witness :
  cross_entropy [Fin 1; Fin 0] [Fin (4 / 10); Fin (6 / 10)] =
  cross_entropy [Fin 0; Fin 1] [Fin (6 / 10); Fin (4 / 10)].
Proof.
  apply (cross_entropy_Permutation
           [Fin 1; Fin 0] [Fin (4 / 10); Fin (6 / 10)]
           [Fin 0; Fin 1] [Fin (6 / 10); Fin (4 / 10)]);
    try reflexivity.
  simpl; apply perm_swap.
Defined.

Lemma ce_term_label (b : bool) (p : R) :
  0 < p < 1 -> ce_term (label b) (Fin p) = Fin (ln (likelihood b p)).
Proof.
  intros Hp; unfold label; rewrite ce_term_Fin by exact Hp.
  f_equal; unfold ce_term_R, likelihood; destruct b; lra.
Qed.

Lemma map2_ce_term_label (bs : list bool) (ps : list R) :
  Forall (fun p => 0 < p < 1) ps ->
  map2 ce_term (map label bs) (map Fin ps) =
  map Fin (map (fun bp => ln (likelihood (fst bp) (snd bp)))
               (combine bs ps)).
Proof.
  intros Hps; revert bs; induction Hps as [| p ps Hp _ IH];
    intros [| b bs]; simpl; try reflexivity.
  now rewrite IH, <- (ce_term_label b p Hp).
Qed.

(** X18. On binary labels and predictions in (0,1) the loss is the negative
    log-likelihood: minus the sum, over the examples, of the logarithm of
    the probability the prediction gives to the label, [p] for the label 1
    and [1 - p] for the label 0. *)
Theorem cross_entropy_binary (bs : list bool) (ps : list R) :
  length bs = length ps ->
  Forall (fun p => 0 < p < 1) ps ->
  cross_entropy (map label bs) (map Fin ps) =
  Ok (Fin (- Rsum (map (fun bp => ln (likelihood (fst bp) (snd bp)))
                       (combine bs ps)))).
Proof.
  intros Hlen Hps.
  rewrite cross_entropy_map2 by (now rewrite !length_map).
  now rewrite (map2_ce_term_label bs ps Hps), np_sum_Fin.
Qed.

Lemma cross_entropy_binary_witness :
  cross_entropy
    (map label [true; false; true; true])
    (map Fin [4 / 10; 6 / 10; 9 / 10; 5 / 10]) =
  Ok (Fin (- Rsum (map (fun bp => ln (likelihood (fst bp) (snd bp)))
                       (combine [true; false; true; true]
                                [4 / 10; 6 / 10; 9 / 10; 5 / 10])))).
Proof.
  apply (cross_entropy_binary
           [true; false; true; true] [4 / 10; 6 / 10; 9 / 10; 5 / 10]).
  - reflexivity.
  - repeat constructor; lra.
Defined.

Lemma Rsum_neg (l : list R) :
  l <> [] -> (forall x, In x l -> x < 0) -> Rsum l < 0.
Proof.
  intros Hne H.
  destruct l as [| x l]; [congruence |]; simpl.
  pose proof (H x (or_introl eq_refl)).
  assert (Rsum l <= 0).
  { apply Rsum_nonpos; intros y Hy; left; apply H; now right. }
  lra.
Qed.

Lemma ce_term_R_neg (y p : R) :
  0 <= y <= 1 -> 0 < p < 1 -> ce_term_R y p < 0.
Proof.
  intros Hy Hp; unfold ce_term_R.
  pose proof (ln_neg p Hp).
  assert (ln (1 - p) < 0) by (apply ln_neg; lra).
  destruct (Rle_or_lt y (1 / 2)); nra.
Qed.

(** X19. In exact arithmetic the loss of C7 is never zero on a non-empty
    input: with labels in [0,1] and predictions in the open interval (0,1),
    of one length N >= 1, [cross_entropy] returns a strictly positive real
    number. *)
Theorem cross_entropy_pos (ys ps : list R) :
  ys <> [] ->
  length ys = length ps ->
  Forall (fun y => 0 <= y <= 1) ys ->
  Forall (fun p => 0 < p < 1) ps ->
  exists r, cross_entropy (map Fin ys) (map Fin ps) = Ok (Fin r) /\ 0 < r.
Proof.
  intros Hne Hlen Hys Hps.
  rewrite (cross_entropy_Fin _ _ Hlen Hps).
  eexists; split; [reflexivity |].
  unfold ce_formula_R.
  match goal with |- 0 < - ?s => assert (s < 0); [| lra] end.
  apply Rsum_neg.
  - destruct ys; [congruence | discriminate].
  - intros x Hx.
    apply in_map_iff in Hx as (i & <- & Hi); apply in_seq in Hi.
    apply ce_term_R_neg.
    + apply (proj1 (Forall_forall _ ys) Hys), nth_In; lia.
    + apply (proj1 (Forall_forall _ ps) Hps), nth_In; lia.
Qed.

Lemma cross_entropy_pos_witness :
  exists r,
    cross_entropy
      (map Fin [1; 0; 1; 1])
      (map Fin [4 / 10; 6 / 10; 9 / 10; 5 / 10]) = Ok (Fin r) /\
    0 < r.
Proof.
  apply (cross_entropy_pos [1; 0; 1; 1] [4 / 10; 6 / 10; 9 / 10; 5 / 10]).
  - discriminate.
  - reflexivity.
  - repeat constructor; lra.
  - repeat constructor; lra.
Defined.

Lemma ln_le_minus_1 (z : R) : 0 < z -> ln z <= z - 1.
Proof.
  intros Hz; pose proof (exp_ineq1_le (ln z)) as H.
  rewrite (exp_ln z Hz) in H; lra.
Qed.

Lemma ln_quotient (a b : R) : 0 < a -> 0 < b -> ln (a / b) = ln a - ln b.
Proof.
  intros Ha Hb; unfold Rdiv.
  rewrite ln_mult, ln_Rinv; try lra.
  now apply Rinv_0_lt_compat.
Qed.

(** Gibbs' inequality for one summand. *)
Lemma ce_term_R_gibbs (y p : R) :
  0 < y < 1 -> 0 < p < 1 -> ce_term_R y p <= ce_term_R y y.
Proof.
  intros Hy Hp; unfold ce_term_R.
  assert (H1 : ln p - ln y <= p / y - 1).
  { rewrite <- ln_quotient by lra; apply ln_le_minus_1.
    apply Rdiv_lt_0_compat; lra. }
  assert (H2 : ln (1 - p) - ln (1 - y) <= (1 - p) / (1 - y) - 1).
  { rewrite <- ln_quotient by lra; apply ln_le_minus_1.
    apply Rdiv_lt_0_compat; lra. }
  assert (E1 : y * (p / y - 1) = p - y) by (field; lra).
  assert (E2 : (1 - y) * ((1 - p) / (1 - y) - 1) = y - p) by (field; lra).
  assert (y * (ln p - ln y) <= y * (p / y - 1))
    by (apply Rmult_le_compat_l; lra).
  assert ((1 - y) * (ln (1 - p) - ln (1 - y)) <=
          (1 - y) * ((1 - p) / (1 - y) - 1))
    by (apply Rmult_le_compat_l; lra).
  lra.
Qed.

Lemma Rsum_le (f g : nat -> R) (l : list nat) :
  (forall i, In i l -> f i <= g i) ->
  Rsum (map f l) <= Rsum (map g l).
Proof.
  induction l as [| i l IH]; intros H; simpl.
  - lra.
  - pose proof (H i (or_introl eq_refl)).
    assert (Rsum (map f l) <= Rsum (map g l))
      by (apply IH; intros; apply H; now right).
    lra.
Qed.

(** X20. Gibbs' inequality, in exact arithmetic: for soft labels in the
    open interval (0,1), no prediction in (0,1) has a smaller loss than the
    labels themselves; the loss of [P] against [Y] is at least the loss of
    [Y] against [Y]. *)
Theorem cross_entropy_gibbs (ys ps : list R) :
  length ys = length ps ->
  Forall (fun y => 0 < y < 1) ys ->
  Forall (fun p => 0 < p < 1) ps ->
  exists a b,
    cross_entropy (map Fin ys) (map Fin ys) = Ok (Fin a) /\
    cross_entropy (map Fin ys) (map Fin ps) = Ok (Fin b) /\
    a <= b.
Proof.
  intros Hlen Hys Hps.
  rewrite (cross_entropy_Fin ys ys eq_refl Hys).
  rewrite (cross_entropy_Fin ys ps Hlen Hps).
  do 2 eexists; split; [reflexivity | split; [reflexivity |]].
  unfold ce_formula_R.
  apply Ropp_le_contravar, Rsum_le; intros i Hi; apply in_seq in Hi.
  apply ce_term_R_gibbs.
  - apply (proj1 (Forall_forall _ ys) Hys), nth_In; lia.
  - apply (proj1 (Forall_forall _ ps) Hps), nth_In; lia.
Qed.

Lemma cross_entropy_gibbs_witness :
  exists a b,
    cross_entropy (map Fin [3 / 10; 8 / 10]) (map Fin [3 / 10; 8 / 10]) =
    Ok (Fin a) /\
    cross_entropy (map Fin [3 / 10; 8 / 10]) (map Fin [4 / 10; 6 / 10]) =
    Ok (Fin b) /\
    a <= b.
Proof.
  apply (cross_entropy_gibbs [3 / 10; 8 / 10] [4 / 10; 6 / 10]).
  - reflexivity.
  - repeat constructor; lra.
  - repeat constructor; lra.
Defined.
